(** * Broadcasting traversal core: shapes, cursors and the odometer

    A shallow embedding of [include/xarray/broadcast.hpp] and
    [include/xarray/xexpression.hpp], and the properties of the design
    document checked against it.

    Conventions of the embedding.

    - [S] is the unsigned size type, [size_bits] wide: its values are
      integers in [0, 2^size_bits) and its arithmetic wraps ([wrapS]).
    - An underlying iterator is its position: the offset of the element it
      points to, counted from the first element of the operand's buffer.
    - Behaviour the language leaves undefined (an iterator or an index out
      of range) is an outcome of its own, never a made-up value: [None], or
      [PastTheEnd] for [broadcast_shape]. *)

From stdpp Require Import numbers option list strings gmap.

Local Open Scope Z_scope.

Module Broadcast.

(** ** Shape and stride vocabulary *)

(** Modelled from the spec: [array_shape<S>] and [array_strides<S>] are
    declared in [xindex.hpp], which is not among the sources.  They are
    ordered sequences, one entry per dimension, outermost first, with no
    behaviour beyond storage and equality; the code uses them through the
    interface of [std::vector<S>] (size constructor, size-and-value
    constructor, [rbegin] and [rend], [operator[]], [operator==], move
    construction). *)
Abbreviation array_shape := (list Z).
Abbreviation array_strides := (list Z).

(** ** Broadcast functions *)

(** [std::accumulate] from [S(0)] with [max]. *)
Definition broadcast_dim (dim_list : list Z) : Z :=
  foldl (fun res dim => Z.max dim res) 0 dim_list.

(** How a call of [broadcast_shape] ends. *)
Inductive outcome : Type :=
  | Returned (trivial_broadcast : bool)
      (* [return trivial_broadcast] *)
  | IncompatibleShapeError
      (* [throw std::runtime_error("broadcast error : ...")] *)
  | PastTheEnd.
      (* [*output_iter] evaluated at [output.rend()]: undefined *)

Global Instance outcome_eq_dec : EqDecision outcome.
Proof. solve_decision. Defined.

(** The loop of [broadcast_shape].  Both reverse iterators are the part of
    their sequence that is still ahead of them, innermost extent first; the
    second component of the result is what the loop leaves in the range of
    [output] from [output_iter] on. *)
Fixpoint broadcast_shape_loop (input_iter output_iter : list Z)
    (trivial_broadcast : bool) : outcome * list Z :=
  match input_iter with
  | [] => (Returned trivial_broadcast, output_iter)
  | i :: input_next =>
      match output_iter with
      | [] => (PastTheEnd, [])
      | o :: output_next =>
          if o =? 1 then
            (* [*output_iter = *input_iter;] and the flag reads the new extent *)
            let '(r, rest) :=
              broadcast_shape_loop input_next output_next
                (trivial_broadcast && (i =? i)) in
            (r, i :: rest)
          else if negb (i =? 1) && negb (o =? i) then
            (IncompatibleShapeError, o :: output_next)
          else
            let '(r, rest) :=
              broadcast_shape_loop input_next output_next
                (trivial_broadcast && (o =? i)) in
            (r, o :: rest)
      end
  end.

(** [broadcast_shape(input, output)]: how the call ends, and [output] as the
    call leaves it (also when it throws: the extents widened before the
    throw stay widened). *)
Definition broadcast_shape (input output : array_shape) : outcome * array_shape :=
  let '(r, out) :=
    broadcast_shape_loop (reverse input) (reverse output)
      (bool_decide (length input = length output)) in
  (r, reverse out).

Definition check_trivial_broadcast (strides1 strides2 : array_strides) : bool :=
  bool_decide (strides1 = strides2).

(** ** The size type *)

(** [S] is taken at [std::size_t]: 64 value bits, arithmetic modulo
    [2^64]. *)
Definition size_bits : Z := 64.
Definition wrapS (x : Z) : Z := x mod 2 ^ size_bits.

(** An [S] added to or subtracted from an iterator is converted to the
    iterator's [difference_type] ([std::ptrdiff_t], as wide as [S]): the
    upper half of [S] reads as negative. *)
Definition to_difference (x : Z) : Z :=
  if x <? 2 ^ (size_bits - 1) then x else x - 2 ^ size_bits.

(** ** broadcasting_iterator *)

Record broadcasting_iterator : Type := {
  m_iter : Z;
  m_strides : array_strides;
  m_backstrides : array_strides
}.

(** The lambda handed to [std::transform] in the constructor:
    [stride != 0 ? stride * shape - 1 : 0]. *)
Definition backstride_op (stride shape : Z) : Z :=
  if negb (stride =? 0) then wrapS (wrapS (stride * shape) - 1) else 0.

(** Binary [std::transform(first1, last1, first2, d_first, op)]: one result
    per element of the first range, written over [d_first] from its start.
    A second range or a destination shorter than the first range is
    undefined ([None]). *)
Fixpoint transform (op : Z → Z → Z) (first1 first2 d_first : list Z)
    : option (list Z) :=
  match first1 with
  | [] => Some d_first
  | x :: first1' =>
      match first2, d_first with
      | y :: first2', _ :: d_first' =>
          (op x y ::.) <$> transform op first1' first2' d_first'
      | _, _ => None
      end
  end.

(** What move construction leaves in its source.  The parameter of the
    constructor is [strides_type&& strides] and [m_strides] is initialised
    with [std::move(strides)]: the move constructor of the vector takes the
    elements over and leaves the parameter empty. *)
Definition moved_from (v : array_strides) : array_strides := [].

(** The constructor.  The member initialisers run first, in the order of
    the members: [m_iter(iter)], [m_strides(std::move(strides))], which
    empties the parameter, and [m_backstrides(shape.size())], which is
    [shape.size()] zeros.  Only then the body transforms the range
    [strides.begin(), strides.end()) of the parameter into
    [m_backstrides]. *)
Definition make_broadcasting_iterator (iter : Z) (strides : array_strides)
    (shape : array_shape) : option broadcasting_iterator :=
  let stored_strides := strides in
  let strides := moved_from strides in
  let zeros := replicate (length shape) 0 in
  backstrides ← transform backstride_op strides shape zeros;
  Some {| m_iter := iter; m_strides := stored_strides;
          m_backstrides := backstrides |}.

(** What an expression of the iterators evaluates to: a reference to the
    buffer element at a position, or a cursor object. *)
Inductive expression_value : Type :=
  | ElementReference (position : Z)
  | CursorObject (it : broadcasting_iterator).

(** [operator*]: [return *m_iter;] *)
Definition operator_star (it : broadcasting_iterator) : expression_value :=
  ElementReference (m_iter it).

(** [m_iter += m_strides[dim];] ([None]: [dim] is out of range). *)
Definition increment (dim : nat) (it : broadcasting_iterator)
    : option broadcasting_iterator :=
  stride ← m_strides it !! dim;
  Some {| m_iter := m_iter it + to_difference stride;
          m_strides := m_strides it;
          m_backstrides := m_backstrides it |}.

(** [m_iter -= m_backstrides[dim];] *)
Definition reset (dim : nat) (it : broadcasting_iterator)
    : option broadcasting_iterator :=
  backstride ← m_backstrides it !! dim;
  Some {| m_iter := m_iter it - to_difference backstride;
          m_strides := m_strides it;
          m_backstrides := m_backstrides it |}.

(** ** multi_iterator *)

(** The tuple of cursors is a list: every cursor has the same size type,
    and the element types do not show in positions. *)
Record multi_iterator : Type := {
  m_iterator : list broadcasting_iterator;
  m_shape : array_shape;
  m_index : array_shape
}.

Definition make_multi_iterator (iterator : list broadcasting_iterator)
    (shape : array_shape) : multi_iterator :=
  {| m_iterator := iterator; m_shape := shape;
     m_index := replicate (length shape) 0 |}.

(** Modelled from the spec: [for_each(fn, tuple)] is declared in
    [utils.hpp], which is not among the sources.  Every owned cursor
    receives the same call: [fn] is applied to each cursor of the tuple,
    first to last. *)
Definition for_each
    (fn : broadcasting_iterator → option broadcasting_iterator)
    (iterators : list broadcasting_iterator)
    : option (list broadcasting_iterator) :=
  mapM fn iterators.

(** [multi_iterator::increment(i)]: [iter.increment(i)] for each cursor. *)
Definition multi_iterator_increment (i : nat) (mi : multi_iterator)
    : option multi_iterator :=
  its ← for_each (increment i) (m_iterator mi);
  Some {| m_iterator := its; m_shape := m_shape mi; m_index := m_index mi |}.

(** [multi_iterator::reset(i)]: [iter.reset(i)] for each cursor. *)
Definition multi_iterator_reset (i : nat) (mi : multi_iterator)
    : option multi_iterator :=
  its ← for_each (reset i) (m_iterator mi);
  Some {| m_iterator := its; m_shape := m_shape mi; m_index := m_index mi |}.

Definition set_index (i : nat) (x : Z) (mi : multi_iterator) : multi_iterator :=
  {| m_iterator := m_iterator mi; m_shape := m_shape mi;
     m_index := <[i := x]> (m_index mi) |}.

(** The loop of [operator++], entered with [j] still to be tested against
    0.  The boolean tells how the loop was left: [false] by [break],
    [true] because [j] reached 0, the carry running out of the outermost
    dimension. *)
Fixpoint operator_incr_loop (j : nat) (mi : multi_iterator)
    : option (multi_iterator * bool) :=
  match j with
  | O => Some (mi, true)
  | S i =>
      index ← m_index mi !! i;
      extent ← m_shape mi !! i;
      let index := wrapS (index + 1) in
      if negb (index =? extent) then
        mi ← multi_iterator_increment i (set_index i index mi);
        Some (mi, false)
      else
        mi ← multi_iterator_reset i (set_index i 0 mi);
        operator_incr_loop i mi
  end.

(** The body of [operator++]: its [for] statement, run on the object up to
    the closing brace of the function. *)
Definition operator_incr_body (mi : multi_iterator)
    : option (multi_iterator * bool) :=
  operator_incr_loop (length (m_index mi)) mi.

(** [operator++].  The function is declared to return [multi_iterator&] and
    has no [return] statement: once the body is through, control flows off
    the end of a function that returns a value, and the call is undefined,
    whatever the body has done to the object. *)
Definition operator_incr (mi : multi_iterator) : option (multi_iterator * bool) :=
  '(_, _) ← operator_incr_body mi; None.

(** [data<N>()]: [return std::get<N>(m_iterator);] *)
Definition data (N : nat) (mi : multi_iterator) : option expression_value :=
  CursorObject <$> m_iterator mi !! N.

(** ** Clients of the iterators *)

(** [n] calls of [increment(dim)] in a row. *)
Fixpoint increment_times (n : nat) (dim : nat) (it : broadcasting_iterator)
    : option broadcasting_iterator :=
  match n with
  | O => Some it
  | S n => it ← increment dim it; increment_times n dim it
  end.

(** What the body of [operator++] does to an iterator over [n] runs, as a
    build shows it that lets control fall off the end of the function back
    into its caller: before each run the index and the position of every
    cursor are read.  The log has one entry per run: what was read before
    it, and whether the run took its carry out of the outermost dimension.
    The second component is the iterator after the last run.  (The call
    itself is [operator_incr], which is undefined.) *)
Fixpoint traverse (n : nat) (mi : multi_iterator)
    : option (list (array_shape * list Z * bool) * multi_iterator) :=
  match n with
  | O => Some ([], mi)
  | S n =>
      '(next, carry) ← operator_incr_body mi;
      '(log, final) ← traverse n next;
      Some ((m_index mi, m_iter <$> m_iterator mi, carry) :: log, final)
  end.

End Broadcast.

(** * xexpression.hpp *)

Module XExpression.

(** The types [is_xexpression] is asked about: fundamental types, the
    classes a program defines (by name), and the instances of the class
    template [xexpression]. *)
Inductive cpp_type : Type :=
  | Fundamental (name : string)
  | Class (name : string)
  | xexpression (D : cpp_type).

Global Instance cpp_type_eq_dec : EqDecision cpp_type.
Proof. solve_decision. Defined.

(** A program is the classes it defines, each with its direct bases.
    [xexpression<D>] itself has no base. *)
Definition direct_bases (classes : gmap string (list cpp_type)) (T : cpp_type)
    : list cpp_type :=
  match T with
  | Class name => default [] (classes !! name)
  | Fundamental _ | xexpression _ => []
  end.

Definition is_class (classes : gmap string (list cpp_type)) (T : cpp_type) : bool :=
  match T with
  | Fundamental _ => false
  | Class name => bool_decide (is_Some (classes !! name))
  | xexpression _ => true
  end.

(** [Derived] reaches [Base] through at most [depth] base clauses. *)
Fixpoint derives_from (depth : nat) (classes : gmap string (list cpp_type))
    (Base Derived : cpp_type) : bool :=
  match depth with
  | O => false
  | S depth =>
      existsb (λ B, bool_decide (B = Base) || derives_from depth classes Base B)
        (direct_bases classes Derived)
  end.

(** [std::is_base_of<Base, Derived>::value]: both are classes, and [Derived]
    is [Base] or has it as a base, direct or not, whatever the access.  A
    chain of base clauses does not repeat a class, so one more step than
    there are classes reaches every base. *)
Definition is_base_of (classes : gmap string (list cpp_type))
    (Base Derived : cpp_type) : bool :=
  is_class classes Base && is_class classes Derived
  && (bool_decide (Base = Derived)
      || derives_from (S (size classes)) classes Base Derived).

(** [template <class E> using is_xexpression =
      std::is_base_of<xexpression<E>, E>;] *)
Definition is_xexpression (classes : gmap string (list cpp_type)) (E : cpp_type)
    : bool :=
  is_base_of classes (xexpression E) E.

(** [std::enable_if<!is_xexpression<E>::value, R>::type]: [R] when [E] is
    no expression, no type at all otherwise. *)
Definition disable_xexpression (classes : gmap string (list cpp_type))
    (E : cpp_type) {R : Type} (r : R) : option R :=
  if negb (is_xexpression classes E) then Some r else None.

End XExpression.

Import Broadcast XExpression.

(** * Vocabulary of the properties *)

(** The dimension pairs [(in, out)] of a call [broadcast_shape(input,
    output)], aligned from the innermost dimension, as they are on entry. *)
Definition aligned_pairs (input output : array_shape) : list (Z * Z) :=
  zip (reverse input) (reverse output).

(** A pair that cannot be broadcast: [out != 1], [in != 1], [in != out]. *)
Definition incompatible (p : Z * Z) : Prop := p.2 ≠ 1 ∧ p.1 ≠ 1 ∧ p.1 ≠ p.2.

Global Instance incompatible_dec p : Decision (incompatible p).
Proof. unfold incompatible. apply _. Defined.

(** What the loop makes of an output extent that it does not reject. *)
Definition widen (i o : Z) : Z := if o =? 1 then i else o.

(** The [i]-th dimension of a shape counted from the innermost one; a shape
    of lower rank has implicit leading dimensions of extent 1. *)
Definition trailing_dim (i : nat) (s : array_shape) : Z :=
  default 1 (reverse s !! i).

(** The backstride as the data model words it: [stride * (extent - 1)] if
    [stride != 0], else 0 (in the arithmetic of [S]). *)
Definition documented_backstride (stride extent : Z) : Z :=
  if negb (stride =? 0) then wrapS (stride * wrapS (extent - 1)) else 0.

(** The invariant of the current index: [0 <= index[d] < shape[d]] for
    every dimension [d], the two sequences having one length. *)
Definition index_in_range (mi : multi_iterator) : Prop :=
  Forall2 (λ index extent, 0 ≤ index < extent) (m_index mi) (m_shape mi).

Global Instance index_in_range_dec mi : Decision (index_in_range mi).
Proof. unfold index_in_range. apply _. Defined.

(** The precondition of the cursor's constructor, as the cursor keeps it:
    strides and backstrides have one entry per dimension of the shape. *)
Definition cursor_fits (shape : array_shape) (it : broadcasting_iterator) : Prop :=
  length (m_strides it) = length shape ∧ length (m_backstrides it) = length shape.

(** [Derived] has [Base] as a base through a chain of [n] base clauses. *)
Inductive inherits (classes : gmap string (list cpp_type))
    : nat → cpp_type → cpp_type → Prop :=
  | inherits_direct Base Derived :
      Base ∈ direct_bases classes Derived → inherits classes 1 Base Derived
  | inherits_through n Base Mid Derived :
      Mid ∈ direct_bases classes Derived → inherits classes n Base Mid →
      inherits classes (S n) Base Derived.

(** A program with one expression class, written
    [class xarray : public xexpression<xarray>], and one class that is
    none. *)
Definition example_classes : gmap string (list cpp_type) :=
  {[ "xarray" := [xexpression (Class "xarray")];
     "plain" := [] ]}.

(** ** Vocabulary of the further properties *)

(** The row-major rank of an index in a shape: the outermost dimension
    counts slowest. *)
Definition flat_index (shape index : list Z) : Z :=
  foldl (λ acc p, acc * p.2 + p.1) 0 (zip index shape).

(** The number of indices of a shape: the product of its extents, 1 for the
    0-dimensional shape. *)
Definition extent_product (shape : list Z) : Z :=
  foldl Z.mul 1 shape.

(** Two states of a cursor with the same strides and backstrides. *)
Definition same_strides (it it' : broadcasting_iterator) : Prop :=
  m_strides it' = m_strides it ∧ m_backstrides it' = m_backstrides it.

(** * The shape broadcaster *)

(** Closed instances of decidable propositions, by evaluation. *)
Ltac by_evaluation :=
  lazymatch goal with
  | |- ¬ ?P => apply (bool_decide_eq_false_1 P)
  | |- ?P => apply (bool_decide_eq_true_1 P)
  end;
  vm_compute; reflexivity.

(** [broadcast_dim] is the largest extent, and 0 for no extent at all. *)
Lemma broadcast_dim_nil : broadcast_dim [] = 0.
Proof. reflexivity. Qed.

Lemma foldl_max_lower_bound (dim_list : list Z) : ∀ res,
  res ≤ foldl (λ res dim, dim `max` res) res dim_list.
Proof.
  induction dim_list as [|d l IH]; intros res; cbn [foldl]; [lia|].
  specialize (IH (d `max` res)). lia.
Qed.

Lemma foldl_max_upper_bound (dim_list : list Z) : ∀ res,
  Forall (λ dim, dim ≤ foldl (λ res dim, dim `max` res) res dim_list) dim_list.
Proof.
  induction dim_list as [|d l IH]; intros res; cbn [foldl]; constructor.
  - pose proof (foldl_max_lower_bound l (d `max` res)). lia.
  - apply IH.
Qed.

Lemma broadcast_dim_upper_bound dim_list :
  Forall (λ dim, dim ≤ broadcast_dim dim_list) dim_list
  ∧ 0 ≤ broadcast_dim dim_list.
Proof.
  split; [apply foldl_max_upper_bound|apply foldl_max_lower_bound].
Qed.

Lemma check_trivial_broadcast_refl strides :
  check_trivial_broadcast strides strides = true.
Proof. unfold check_trivial_broadcast. by apply bool_decide_eq_true_2. Qed.

Lemma check_trivial_broadcast_differ strides1 strides2 :
  strides1 ≠ strides2 → check_trivial_broadcast strides1 strides2 = false.
Proof. intros H. unfold check_trivial_broadcast. by apply bool_decide_eq_false_2. Qed.

Section BroadcastShape.

Implicit Types input output : list Z.

(** One turn of the loop, with the pair of the result taken apart. *)
Lemma broadcast_shape_loop_cons i o rin rout t :
  broadcast_shape_loop (i :: rin) (o :: rout) t =
    if o =? 1 then
      let p := broadcast_shape_loop rin rout t in (p.1, i :: p.2)
    else if negb (i =? 1) && negb (o =? i) then
      (IncompatibleShapeError, o :: rout)
    else
      let p := broadcast_shape_loop rin rout (t && (o =? i)) in
      (p.1, o :: p.2).
Proof.
  simpl. rewrite Z.eqb_refl, andb_true_r.
  destruct (o =? 1); [by destruct broadcast_shape_loop|].
  destruct (negb (i =? 1) && negb (o =? i)); [done|].
  by destruct broadcast_shape_loop.
Qed.

(** The loop throws exactly when it meets a pair it cannot broadcast. *)
Lemma loop_throws_iff rin : ∀ rout t,
  (broadcast_shape_loop rin rout t).1 = IncompatibleShapeError
  ↔ Exists incompatible (zip rin rout).
Proof.
  induction rin as [|i rin IH]; intros [|o rout] t;
    try (simpl; rewrite Exists_nil; split; [discriminate|tauto]).
  rewrite broadcast_shape_loop_cons. cbn [zip zip_with].
  rewrite Exists_cons. unfold incompatible at 1. cbn [fst snd].
  destruct (Z.eqb_spec o 1) as [->|Ho].
  { cbn [fst]. rewrite IH. tauto. }
  destruct (Z.eqb_spec i 1) as [->|Hi]; cbn [negb andb].
  { cbn [fst]. rewrite IH. tauto. }
  destruct (Z.eqb_spec o i) as [->|Hoi]; cbn [negb fst].
  { rewrite IH. tauto. }
  split; [intros _; left; repeat split; congruence|done].
Qed.

(** What a loop that returns has computed. *)
Lemma loop_returns rin : ∀ rout t t' out,
  broadcast_shape_loop rin rout t = (Returned t', out) →
  (length rin ≤ length rout)%nat
  ∧ t' = t && forallb (λ p, (p.2 =? 1) || (p.2 =? p.1)) (zip rin rout)
  ∧ out = zip_with widen rin rout ++ drop (length rin) rout.
Proof.
  induction rin as [|i rin IH]; intros rout t t' out.
  - simpl. intros [= <- <-]. rewrite andb_true_r, drop_0. split; [lia|done].
  - destruct rout as [|o rout]; [done|]. rewrite broadcast_shape_loop_cons.
    cbn [zip zip_with forallb fst snd length drop]. unfold widen at 1.
    destruct (Z.eqb_spec o 1) as [->|Ho].
    { cbn zeta. destruct (broadcast_shape_loop rin rout t) as [r rest] eqn:E.
      cbn [fst snd]. intros [= -> <-]. apply IH in E as (?&->&->).
      split; [lia|]. done. }
    destruct (negb (i =? 1) && negb (o =? i)); [done|].
    cbn zeta. destruct (broadcast_shape_loop rin rout _) as [r rest] eqn:E.
    cbn [fst snd orb]. intros [= -> <-]. apply IH in E as (?&->&->).
    split; [lia|]. split; [|done]. by rewrite andb_assoc.
Qed.

(** An input no longer than the output keeps [output_iter] in range. *)
Lemma loop_in_range rin : ∀ rout t,
  (length rin ≤ length rout)%nat →
  (broadcast_shape_loop rin rout t).1 ≠ PastTheEnd.
Proof.
  induction rin as [|i rin IH]; intros rout t Hlen; [done|].
  destruct rout as [|o rout]; [simpl in Hlen; lia|].
  rewrite broadcast_shape_loop_cons. simpl in Hlen.
  destruct (o =? 1); [cbn; apply IH; lia|].
  destruct (negb (i =? 1) && negb (o =? i)); [done|].
  cbn; apply IH; lia.
Qed.

(** A longer input runs [output_iter] out of range, unless the loop throws
    before. *)
Lemma loop_past_the_end_iff rin : ∀ rout t,
  (broadcast_shape_loop rin rout t).1 = PastTheEnd
  ↔ (length rout < length rin)%nat ∧ ¬ Exists incompatible (zip rin rout).
Proof.
  induction rin as [|i rin IH]; intros [|o rout] t.
  - simpl. split; [discriminate|]. intros [Hlt _]. simpl in Hlt. lia.
  - simpl. split; [discriminate|]. intros [Hlt _]. simpl in Hlt. lia.
  - simpl. split; [intros _|done]. split; [lia|]. rewrite Exists_nil. tauto.
  - rewrite broadcast_shape_loop_cons. cbn [zip zip_with length].
    rewrite Exists_cons. unfold incompatible at 1. cbn [fst snd].
    destruct (Z.eqb_spec o 1) as [->|Ho].
    { cbn [fst]. rewrite IH. split; intros [Hlt Hok]; (split; [lia|tauto]). }
    destruct (Z.eqb_spec i 1) as [->|Hi]; cbn [negb andb].
    { cbn [fst]. rewrite IH. split; intros [Hlt Hok]; (split; [lia|tauto]). }
    destruct (Z.eqb_spec o i) as [->|Hoi]; cbn [negb fst].
    { rewrite IH. split; intros [Hlt Hok]; (split; [lia|tauto]). }
    split; [discriminate|]. intros [_ Hok]. exfalso. apply Hok. left.
    repeat split; congruence.
Qed.

Lemma loop_length rin : ∀ rout t,
  length (broadcast_shape_loop rin rout t).2 = length rout.
Proof.
  induction rin as [|i rin IH]; intros rout t; [done|].
  destruct rout as [|o rout]; [done|]. rewrite broadcast_shape_loop_cons.
  destruct (o =? 1); [cbn; by rewrite IH|].
  destruct (negb (i =? 1) && negb (o =? i)); [done|].
  cbn; by rewrite IH.
Qed.

Lemma broadcast_shape_fst input output :
  (broadcast_shape input output).1 =
  (broadcast_shape_loop (reverse input) (reverse output)
     (bool_decide (length input = length output))).1.
Proof. unfold broadcast_shape. by destruct broadcast_shape_loop. Qed.

Lemma broadcast_shape_snd input output :
  (broadcast_shape input output).2 =
  reverse (broadcast_shape_loop (reverse input) (reverse output)
     (bool_decide (length input = length output))).2.
Proof. unfold broadcast_shape. by destruct broadcast_shape_loop. Qed.

Lemma broadcast_shape_throws_iff input output :
  (broadcast_shape input output).1 = IncompatibleShapeError
  ↔ Exists incompatible (aligned_pairs input output).
Proof. rewrite broadcast_shape_fst. apply loop_throws_iff. Qed.

Lemma broadcast_shape_in_range input output :
  (length input ≤ length output)%nat →
  (broadcast_shape input output).1 ≠ PastTheEnd.
Proof.
  intros Hlen. rewrite broadcast_shape_fst. apply loop_in_range.
  by rewrite !length_reverse.
Qed.

Lemma broadcast_shape_past_the_end_iff input output :
  (broadcast_shape input output).1 = PastTheEnd
  ↔ (length output < length input)%nat
    ∧ ¬ Exists incompatible (aligned_pairs input output).
Proof.
  rewrite broadcast_shape_fst, loop_past_the_end_iff.
  by rewrite !length_reverse.
Qed.

Lemma broadcast_shape_length input output :
  length (broadcast_shape input output).2 = length output.
Proof.
  by rewrite broadcast_shape_snd, length_reverse, loop_length, length_reverse.
Qed.

Lemma broadcast_shape_succeeds input output :
  (length input ≤ length output)%nat →
  ¬ Exists incompatible (aligned_pairs input output) →
  ∃ t, (broadcast_shape input output).1 = Returned t.
Proof.
  intros Hlen Hok. apply broadcast_shape_in_range in Hlen.
  rewrite <-broadcast_shape_throws_iff in Hok.
  destruct (broadcast_shape input output).1; [by eexists|done..].
Qed.

Lemma broadcast_shape_returns input output t out :
  broadcast_shape input output = (Returned t, out) →
  (length input ≤ length output)%nat
  ∧ t = bool_decide (length input = length output)
        && forallb (λ p, (p.2 =? 1) || (p.2 =? p.1)) (aligned_pairs input output)
  ∧ reverse out = zip_with widen (reverse input) (reverse output)
                  ++ drop (length input) (reverse output).
Proof.
  unfold broadcast_shape.
  destruct broadcast_shape_loop as [r rout] eqn:E. intros [= -> <-].
  apply loop_returns in E as (Hlen & -> & ->).
  rewrite !length_reverse in Hlen. rewrite reverse_involutive, length_reverse.
  done.
Qed.

Lemma forallb_widened (l : list (Z * Z)) :
  forallb (λ p, (p.2 =? 1) || (p.2 =? p.1)) l = true
  ↔ Forall (λ p, p.2 = 1 ∨ p.2 = p.1) l.
Proof.
  induction l as [|p l IH]; simpl.
  - split; [constructor|done].
  - rewrite Forall_cons, andb_true_iff, orb_true_iff, IH.
    by rewrite !Z.eqb_eq.
Qed.

(** The widened output is the input exactly when every output extent was
    1 or the input's. *)
Lemma zip_with_widen_id rin : ∀ rout,
  length rin = length rout →
  (zip_with widen rin rout = rin
   ↔ Forall (λ p, p.2 = 1 ∨ p.2 = p.1) (zip rin rout)).
Proof.
  induction rin as [|i rin IH]; intros [|o rout] Hlen; try discriminate Hlen.
  - split; [constructor|done].
  - cbn [zip zip_with]. rewrite Forall_cons. cbn [fst snd].
    injection Hlen as Hlen. specialize (IH _ Hlen).
    unfold widen at 1. destruct (Z.eqb_spec o 1) as [->|Ho].
    + split.
      * intros [= E]. split; [by left|by apply IH].
      * intros [_ HF]. f_equal. by apply IH.
    + split.
      * intros [= Eo E]. split; [by right|by apply IH].
      * intros [[Ho1|Eo] HF]; [done|]. f_equal; [done|by apply IH].
Qed.

(** With extents of at least 1 and no pair rejected, every extent the
    loop leaves is the larger of the two it aligned. *)
Lemma widened_extents_max rin : ∀ rout i,
  (length rin ≤ length rout)%nat →
  Forall (λ x, 1 ≤ x) rin → Forall (λ x, 1 ≤ x) rout →
  ¬ Exists incompatible (zip rin rout) →
  default 1 ((zip_with widen rin rout ++ drop (length rin) rout) !! i)
  = default 1 (rout !! i) `max` default 1 (rin !! i).
Proof.
  induction rin as [|b rin IH]; intros rout i Hlen Hin Hout Hok.
  - cbn [zip_with length app]. rewrite drop_0, lookup_nil.
    cbn [from_option id].
    destruct (rout !! i) as [a|] eqn:E; cbn [from_option id]; [|reflexivity].
    eapply Forall_lookup_1 in Hout; [|done]. cbv beta in Hout. lia.
  - destruct rout as [|a rout]; [simpl in Hlen; lia|].
    apply Forall_cons in Hin as [Hb Hin].
    apply Forall_cons in Hout as [Ha Hout].
    cbn [zip zip_with] in Hok. rewrite Exists_cons in Hok.
    change (drop (length (b :: rin)) (a :: rout)) with (drop (length rin) rout).
    cbn [zip_with app]. destruct i as [|i].
    + cbn [lookup list_lookup from_option id]. unfold widen.
      destruct (Z.eqb_spec a 1) as [->|Ha1]; [lia|].
      destruct (decide (b = 1)) as [->|Hb1]; [lia|].
      destruct (decide (b = a)) as [->|Hba]; [lia|].
      exfalso. apply Hok. left. done.
    + rewrite !lookup_cons. apply IH; [simpl in Hlen; lia|done..|tauto].
Qed.

(** Folding a shape into itself changes nothing and is trivial: an
accumulator that starts at the shape of the first operand is as good as
one into which the first operand has been folded. *)
Lemma loop_self rin : ∀ t,
  broadcast_shape_loop rin rin t = (Returned t, rin).
Proof.
  induction rin as [|i rin IH]; intros t; [done|].
  rewrite broadcast_shape_loop_cons, Z.eqb_refl, andb_true_r.
  destruct (i =? 1); cbn zeta; rewrite IH; [done|].
  destruct (i =? 1); done.
Qed.

Lemma broadcast_shape_self input :
  broadcast_shape input input = (Returned true, input).
Proof.
  unfold broadcast_shape. rewrite loop_self, reverse_involutive.
  by rewrite bool_decide_eq_true_2.
Qed.

End BroadcastShape.

(** ** Properties of [broadcast_shape] *)

(** C1, as the code has it.  For every call [broadcast_shape(input, output)]:
    the call throws the incompatible-shape error if and only if some
    right-aligned pair [(in, out)] has [out != 1], [in != 1] and
    [in != out]; in every other case the call returns, provided the input
    has at most the rank of the output.  With an input of higher rank and
    no such pair the loop runs [output_iter] past [output.rend()]. *)
Theorem broadcast_shape_fails_iff (input output : list Z) :
  ((broadcast_shape input output).1 = IncompatibleShapeError
   ↔ Exists incompatible (aligned_pairs input output))
  ∧ ((length input ≤ length output)%nat →
     ¬ Exists incompatible (aligned_pairs input output) →
     ∃ t, (broadcast_shape input output).1 = Returned t)
  ∧ ((length output < length input)%nat →
     ¬ Exists incompatible (aligned_pairs input output) →
     (broadcast_shape input output).1 = PastTheEnd).
Proof.
  split; [apply broadcast_shape_throws_iff|]. split.
  - apply broadcast_shape_succeeds.
  - intros Hlen Hok. by apply broadcast_shape_past_the_end_iff.
Qed.

Lemma broadcast_shape_fails_iff_witness :
  ((broadcast_shape [4] [2; 3]).1 = IncompatibleShapeError
   ↔ Exists incompatible (aligned_pairs [4] [2; 3]))
  ∧ (∃ t, (broadcast_shape [1; 3] [2; 3]).1 = Returned t)
  ∧ (broadcast_shape [2; 3] [3]).1 = PastTheEnd.
Proof.
  split; [apply (broadcast_shape_fails_iff [4] [2; 3])|]. split.
  - apply (broadcast_shape_fails_iff [1; 3] [2; 3]); [simpl; lia|by_evaluation].
  - apply (broadcast_shape_fails_iff [2; 3] [3]); [simpl; lia|by_evaluation].
Defined.

(** C1 as stated fails for an input of higher rank than the output:
    folding [[2; 3]] into [[3]] meets no incompatible pair, and yet the call
    does not return: after the pair [(3, 3)] the loop reads [*output_iter]
    at [output.rend()]. *)
Lemma broadcast_shape_longer_input_counterexample :
  ¬ (((broadcast_shape [2; 3] [3]).1 = IncompatibleShapeError
      ↔ Exists incompatible (aligned_pairs [2; 3] [3]))
     ∧ (¬ Exists incompatible (aligned_pairs [2; 3] [3]) →
        ∃ t, (broadcast_shape [2; 3] [3]).1 = Returned t)).
Proof.
  intros [_ Hsucc]. destruct Hsucc as [t Ht]; [by_evaluation|discriminate Ht].
Qed.

(** C2, as the code has it.  For every call that returns, the flag is true
    if and only if input and output had equal rank on entry and, in every
    right-aligned pair, the output extent was 1 or was the input's extent:
    the flag is compared after the extent is widened, so widening from 1
    keeps it.  Put differently, the flag is true if and only if the output
    is the input's shape when the call returns. *)
Theorem trivial_flag_iff (input output : list Z) (t : bool) (out : list Z) :
  broadcast_shape input output = (Returned t, out) →
  (t = true ↔ length input = length output
              ∧ Forall (λ p, p.2 = 1 ∨ p.2 = p.1) (aligned_pairs input output))
  ∧ (t = true ↔ out = input).
Proof.
  intros H. apply broadcast_shape_returns in H as (Hlen & -> & Hout).
  rewrite andb_true_iff, bool_decide_eq_true, forallb_widened.
  split; [done|].
  split.
  - intros [Heq HF]. apply (inj reverse). rewrite Hout.
    rewrite drop_ge by (rewrite length_reverse; lia). rewrite app_nil_r.
    apply zip_with_widen_id; [by rewrite !length_reverse|done].
  - intros ->.
    assert (length input = length output) as Heq.
    { apply (f_equal length) in Hout.
      rewrite length_app, length_zip_with, length_drop, !length_reverse in Hout.
      lia. }
    split; [done|].
    rewrite drop_ge, app_nil_r in Hout by (rewrite length_reverse; lia).
    apply zip_with_widen_id; [by rewrite !length_reverse|done].
Qed.

Lemma trivial_flag_iff_witness :
  (false = true ↔ length [1; 3] = length [2; 3]
              ∧ Forall (λ p, p.2 = 1 ∨ p.2 = p.1) (aligned_pairs [1; 3] [2; 3]))
  ∧ (false = true ↔ [2; 3] = [1; 3]).
Proof. apply (trivial_flag_iff [1; 3] [2; 3] false [2; 3]). reflexivity. Defined.

(** C2 as stated fails when an extent is widened: folding [[5]] into [[1]]
    returns true and leaves [[5]], although the aligned pair [(5, 1)] was
    not equal before the call. *)
Lemma trivial_flag_widening_counterexample :
  broadcast_shape [5] [1] = (Returned true, [5])
  ∧ ¬ (true = true ↔ length [5] = length [1]
                      ∧ Forall (λ p : Z * Z, p.1 = p.2) (aligned_pairs [5] [1])).
Proof.
  split; [reflexivity|]. intros [H _]. destruct H as [_ H]; [done|].
  apply Forall_cons in H as [H _]. discriminate H.
Qed.

(** C4, as the code has it.  For broadcast-compatible shapes [A] and [B]
    with extents of at least 1, where [B] has at most the rank of [A]:
    folding [B] into an accumulator that starts at [A] returns, the
    accumulator keeps the rank of [A], which is the larger of the two ranks,
    and its [i]-th trailing dimension is the larger of the two operands'
    [i]-th trailing dimensions ([B] read with leading dimensions of extent
    1). *)
Theorem broadcast_fold_rank_and_extents (A B : list Z) :
  (length B ≤ length A)%nat →
  Forall (λ x, 1 ≤ x) A → Forall (λ x, 1 ≤ x) B →
  ¬ Exists incompatible (aligned_pairs B A) →
  ∃ t out, broadcast_shape B A = (Returned t, out)
    ∧ length out = (length A `max` length B)%nat
    ∧ ∀ i, trailing_dim i out = trailing_dim i A `max` trailing_dim i B.
Proof.
  intros Hlen HA HB Hok.
  destruct (broadcast_shape_succeeds B A Hlen Hok) as [t Ht].
  pose proof (broadcast_shape_length B A) as Hrank.
  destruct (broadcast_shape B A) as [r out] eqn:E.
  cbn [fst] in Ht. cbn [snd] in Hrank. subst r.
  exists t, out. split; [done|]. split; [lia|]. intros i.
  apply broadcast_shape_returns in E as (_ & _ & Hout).
  unfold trailing_dim. rewrite Hout, <-(length_reverse B).
  apply widened_extents_max;
    [by rewrite !length_reverse|by apply Forall_reverse..|done].
Qed.

Lemma broadcast_fold_rank_and_extents_witness :
  ∃ t out, broadcast_shape [3; 1] [2; 1; 4] = (Returned t, out)
    ∧ length out = (length [2; 1; 4] `max` length [3; 1])%nat
    ∧ ∀ i, trailing_dim i out
           = trailing_dim i [2; 1; 4] `max` trailing_dim i [3; 1].
Proof.
  apply (broadcast_fold_rank_and_extents [2; 1; 4] [3; 1]).
  - simpl. lia.
  - repeat constructor; lia.
  - repeat constructor; lia.
  - by_evaluation.
Defined.

(** C4 as stated fails in two ways.  With [A = [3]] and [B = [2; 3]], which
    are compatible, the fold does not return: the accumulator is never
    given the rank of [B].  With [A = [1]] and [B = [0]] the fold returns
    [[0]]: the extent 1 yields to the extent 0, which is not the larger of
    the two. *)
Lemma broadcast_fold_counterexample :
  (¬ Exists incompatible (aligned_pairs [2; 3] [3])
   ∧ ∀ t out, broadcast_shape [2; 3] [3] ≠ (Returned t, out))
  ∧ (¬ Exists incompatible (aligned_pairs [0] [1])
     ∧ broadcast_shape [0] [1] = (Returned true, [0])
     ∧ trailing_dim 0 [0] ≠ trailing_dim 0 [1] `max` trailing_dim 0 [0]).
Proof.
  split; split; [by_evaluation|done|by_evaluation|].
  split; done.
Qed.

(** C9.  For every call [broadcast_shape(input, output)] whose input has at
    most the rank of the output, the output has the same length after the
    call as before it, whether the call returns or throws; the call ends in
    one of these two ways. *)
Theorem broadcast_shape_keeps_rank (input output : list Z) :
  (length input ≤ length output)%nat →
  length (broadcast_shape input output).2 = length output
  ∧ (broadcast_shape input output).1 ≠ PastTheEnd.
Proof.
  intros Hlen. split; [apply broadcast_shape_length|].
  by apply broadcast_shape_in_range.
Qed.

Lemma broadcast_shape_keeps_rank_witness :
  length (broadcast_shape [4; 1] [7; 1; 3]).2 = length [7; 1; 3]
  ∧ (broadcast_shape [4; 1] [7; 1; 3]).1 ≠ PastTheEnd.
Proof. apply (broadcast_shape_keeps_rank [4; 1] [7; 1; 3]). simpl. lia. Defined.

(** * The broadcasting cursor *)

Lemma wrapS_small x : 0 ≤ x < 2 ^ size_bits → wrapS x = x.
Proof. intros H. unfold wrapS. by apply Z.mod_small. Qed.

(** The body of the constructor transforms an empty range. *)
Lemma transform_moved_from op strides shape zeros :
  transform op (moved_from strides) shape zeros = Some zeros.
Proof. reflexivity. Qed.

(** Over ranges of one length, [std::transform] is [zip_with]: what the
    body of the constructor would store, were the strides still there. *)
Lemma transform_zip_with op first1 : ∀ first2 d_first,
  length first1 = length first2 → length first1 = length d_first →
  transform op first1 first2 d_first = Some (zip_with op first1 first2).
Proof.
  induction first1 as [|x first1 IH]; intros [|y first2] [|d d_first] H2 Hd;
    try discriminate; [done|].
  cbn [transform zip_with]. rewrite IH by (simpl in *; lia). done.
Qed.

(** So every cursor is built with backstrides that are all 0. *)
Lemma make_broadcasting_iterator_backstrides iter strides shape :
  make_broadcasting_iterator iter strides shape
  = Some {| m_iter := iter; m_strides := strides;
            m_backstrides := replicate (length shape) 0 |}.
Proof. reflexivity. Qed.

Lemma make_broadcasting_iterator_fits iter strides shape it :
  length strides = length shape →
  make_broadcasting_iterator iter strides shape = Some it →
  cursor_fits shape it.
Proof.
  rewrite make_broadcasting_iterator_backstrides. intros Hlen [= <-].
  split; [done|]. cbn [m_backstrides]. by rewrite length_replicate.
Qed.

(** The lambda of the constructor, where its arithmetic does not wrap: it
    is [stride * shape - 1], which is the documented
    [stride * (shape - 1)] for the stride 1 and for no other. *)
Lemma backstride_op_value stride shape :
  0 < stride * shape < 2 ^ size_bits →
  backstride_op stride shape = stride * shape - 1.
Proof.
  intros Hr. unfold backstride_op.
  destruct (Z.eqb_spec stride 0) as [->|_]; [lia|]. cbn [negb].
  rewrite (wrapS_small (stride * shape)) by lia.
  apply wrapS_small. lia.
Qed.

Lemma backstride_op_documented_iff stride shape :
  0 < stride → 0 < shape → stride * shape < 2 ^ size_bits →
  (backstride_op stride shape = documented_backstride stride shape ↔ stride = 1).
Proof.
  intros Hs He Hr. rewrite backstride_op_value by nia.
  unfold documented_backstride.
  destruct (Z.eqb_spec stride 0) as [|_]; [lia|]. cbn [negb].
  rewrite (wrapS_small (shape - 1)) by nia.
  rewrite wrapS_small by nia. lia.
Qed.

(** C3 on the code, at strides [[3; 1]] over the shape [[2; 3]]: the
    constructor stores the backstrides [[0; 0]], because the range it
    transforms is that of the parameter it has just moved from; the lambda
    itself, applied to these strides, yields [[5; 2]]; the backstrides of
    the data model are [[3; 2]]. *)
Theorem backstrides_as_constructed :
  m_backstrides <$> make_broadcasting_iterator 0 [3; 1] [2; 3] = Some [0; 0]
  ∧ transform backstride_op [3; 1] [2; 3] [0; 0] = Some [5; 2]
  ∧ zip_with documented_backstride [3; 1] [2; 3] = [3; 2].
Proof. repeat split; vm_compute; reflexivity. Qed.

(** [n] increments move the position by [n] strides and leave the strides
    and backstrides as they are. *)
Lemma increment_times_position n : ∀ it k,
  m_strides it !! 0%nat = Some k →
  ∃ it', increment_times n 0 it = Some it'
    ∧ m_iter it' = m_iter it + Z.of_nat n * to_difference k
    ∧ m_strides it' = m_strides it ∧ m_backstrides it' = m_backstrides it.
Proof.
  induction n as [|n IH]; intros it k Hk.
  { exists it. repeat split; [|done..]. lia. }
  cbn [increment_times]. unfold increment at 1. rewrite Hk.
  cbn [mbind option_bind].
  match goal with |- context [increment_times n 0 ?c] =>
    destruct (IH c k) as (it' & -> & Hpos & Hs & Hb) end; [done|].
  exists it'. cbn [m_iter m_strides m_backstrides] in *.
  repeat split; [lia|done..].
Qed.

(** The backstride of the data model undoes [extent - 1] strides, where
    the arithmetic of [S] does not wrap. *)
Lemma documented_backstride_undoes k extent :
  0 < k → 0 < extent → k * extent < 2 ^ (size_bits - 1) →
  to_difference (documented_backstride k extent)
  = to_difference k * (extent - 1).
Proof.
  intros Hk He Hr. unfold documented_backstride.
  destruct (Z.eqb_spec k 0) as [|_]; [lia|]. cbn [negb].
  change (2 ^ (size_bits - 1)) with 9223372036854775808 in Hr.
  assert (0 ≤ k * (extent - 1) < 9223372036854775808) as Hb by nia.
  rewrite (wrapS_small (extent - 1))
    by (change (2 ^ size_bits) with 18446744073709551616; nia).
  rewrite wrapS_small
    by (change (2 ^ size_bits) with 18446744073709551616; lia).
  unfold to_difference.
  change (2 ^ (size_bits - 1)) with 9223372036854775808.
  destruct (Z.ltb_spec (k * (extent - 1)) 9223372036854775808); [|lia].
  destruct (Z.ltb_spec k 9223372036854775808); [done|nia].
Qed.

(** A stride that is not 0 moves the position. *)
Lemma to_difference_nonzero k :
  0 < k < 2 ^ size_bits → to_difference k ≠ 0.
Proof.
  intros Hk. unfold to_difference.
  change (2 ^ size_bits) with 18446744073709551616 in *.
  change (2 ^ (size_bits - 1)) with 9223372036854775808.
  destruct (Z.ltb_spec k 9223372036854775808); lia.
Qed.

(** With the backstride of the data model, [n] increments and one reset
    never return to the start when the stride is not 0. *)
Lemma advance_reset_misses_start it (n : nat) k b :
  m_strides it !! 0%nat = Some k →
  m_backstrides it !! 0%nat = Some b →
  0 < k < 2 ^ size_bits →
  to_difference b = to_difference k * (Z.of_nat n - 1) →
  m_iter <$> (increment_times n 0 it ≫= reset 0) ≠ Some (m_iter it).
Proof.
  intros Hk Hb Hnz Hback.
  destruct (increment_times_position n it k Hk)
    as (it' & -> & Hpos & _ & Hb').
  cbn [mbind option_bind]. unfold reset. rewrite Hb', Hb.
  cbn [mbind option_bind fmap option_fmap option_map m_iter].
  intros [= H]. apply (to_difference_nonzero k Hnz). lia.
Qed.

(** C6 on the code.  A cursor built over a one-dimensional shape of extent
    [n] with a stride [k] that is not 0 never comes back: the constructor
    stores the backstride 0, [reset(0)] takes nothing off, and [n] calls of
    [increment(0)] followed by one [reset(0)] leave the position [n] strides
    past where it started. *)
Theorem built_cursor_round_trip (iter k : Z) (n : nat) :
  0 < k < 2 ^ size_bits → (1 ≤ n)%nat →
  (it ← make_broadcasting_iterator iter [k] [Z.of_nat n];
   m_iter <$> (increment_times n 0 it ≫= reset 0))
  = Some (iter + Z.of_nat n * to_difference k)
  ∧ iter + Z.of_nat n * to_difference k ≠ iter.
Proof.
  intros Hk Hn. rewrite make_broadcasting_iterator_backstrides.
  cbn [mbind option_bind length replicate].
  match goal with |- context [increment_times n 0 ?c] =>
    destruct (increment_times_position n c k eq_refl)
      as (it' & -> & Hpos & _ & Hb) end.
  cbn [mbind option_bind]. unfold reset. rewrite Hb.
  cbn [m_backstrides lookup list_lookup mbind option_bind
       fmap option_fmap option_map m_iter] in *.
  change (to_difference 0) with 0. rewrite Z.sub_0_r, Hpos.
  split; [done|]. pose proof (to_difference_nonzero k Hk). nia.
Qed.

Lemma built_cursor_round_trip_witness :
  (it ← make_broadcasting_iterator 0 [1] [Z.of_nat 2];
   m_iter <$> (increment_times 2 0 it ≫= reset 0))
  = Some (0 + Z.of_nat 2 * to_difference 1)
  ∧ 0 + Z.of_nat 2 * to_difference 1 ≠ 0.
Proof. apply (built_cursor_round_trip 0 1 2); [vm_compute; done|lia]. Defined.

(** C7 on the code: [data<N>()] yields the [N]-th cursor of the tuple as it
    is; [operator*] is not applied to it. *)
Theorem data_returns_the_cursor (mi : multi_iterator) (N : nat)
    (it : broadcasting_iterator) :
  m_iterator mi !! N = Some it →
  data N mi = Some (CursorObject it) ∧ data N mi ≠ Some (operator_star it).
Proof.
  intros H. unfold data. rewrite H. split; [done|]. discriminate.
Qed.

Lemma data_returns_the_cursor_witness :
  let it := {| m_iter := 4; m_strides := [1]; m_backstrides := [0] |} in
  data 0 (make_multi_iterator [it] [5]) = Some (CursorObject it)
  ∧ data 0 (make_multi_iterator [it] [5]) ≠ Some (operator_star it).
Proof.
  apply (data_returns_the_cursor
    (make_multi_iterator
       [{| m_iter := 4; m_strides := [1]; m_backstrides := [0] |}] [5]) 0).
  reflexivity.
Defined.

(** * The odometer *)

Lemma increment_fits shape dim it it' :
  increment dim it = Some it' → cursor_fits shape it → cursor_fits shape it'.
Proof.
  unfold increment. destruct (m_strides it !! dim); [|done].
  by intros [= <-].
Qed.

Lemma reset_fits shape dim it it' :
  reset dim it = Some it' → cursor_fits shape it → cursor_fits shape it'.
Proof.
  unfold reset. destruct (m_backstrides it !! dim); [|done].
  by intros [= <-].
Qed.

Lemma increment_defined shape dim it :
  (dim < length shape)%nat → cursor_fits shape it → is_Some (increment dim it).
Proof.
  intros Hdim [Hs _]. unfold increment.
  destruct (lookup_lt_is_Some_2 (m_strides it) dim) as [s ->]; [lia|].
  by eexists.
Qed.

Lemma reset_defined shape dim it :
  (dim < length shape)%nat → cursor_fits shape it → is_Some (reset dim it).
Proof.
  intros Hdim [_ Hb]. unfold reset.
  destruct (lookup_lt_is_Some_2 (m_backstrides it) dim) as [s ->]; [lia|].
  by eexists.
Qed.

(** [for_each] over cursors that fit the shape: defined, and they still
    fit. *)
Lemma for_each_fits (f : broadcasting_iterator → option broadcasting_iterator)
    shape its :
  (∀ it, cursor_fits shape it → is_Some (f it)) →
  (∀ it it', f it = Some it' → cursor_fits shape it → cursor_fits shape it') →
  Forall (cursor_fits shape) its →
  ∃ its', for_each f its = Some its' ∧ Forall (cursor_fits shape) its'.
Proof.
  intros Hdef Hfit Hits. unfold for_each.
  destruct (mapM_is_Some_2 f its) as [its' E].
  { eapply Forall_impl; [done|]. intros it ?. by apply Hdef. }
  exists its'. split; [done|].
  apply mapM_Some_1 in E. induction E as [|it it' its its' Hf _ IH]; [done|].
  apply Forall_cons in Hits as [Hit Hits].
  constructor; [by eapply Hfit|by apply IH].
Qed.

(** The loop of [operator++], entered at any [j] within the rank, is
    defined and keeps shape, cursors and index invariant. *)
Lemma operator_incr_loop_in_range j : ∀ mi,
  (j ≤ length (m_index mi))%nat →
  Forall (λ e, e < 2 ^ size_bits) (m_shape mi) →
  Forall (cursor_fits (m_shape mi)) (m_iterator mi) →
  index_in_range mi →
  ∃ mi' carry, operator_incr_loop j mi = Some (mi', carry)
    ∧ m_shape mi' = m_shape mi
    ∧ Forall (cursor_fits (m_shape mi)) (m_iterator mi')
    ∧ index_in_range mi'.
Proof.
  induction j as [|i IH]; intros mi Hj Hrep Hfit Hinv.
  { exists mi, true. done. }
  cbn [operator_incr_loop].
  destruct (lookup_lt_is_Some_2 (m_index mi) i) as [index Hindex]; [lia|].
  pose proof (Forall2_length _ _ _ Hinv) as Hlen.
  destruct (lookup_lt_is_Some_2 (m_shape mi) i) as [extent Hextent]; [lia|].
  rewrite Hindex, Hextent. cbn [mbind option_bind].
  pose proof (Forall2_lookup_lr _ _ _ _ _ _ Hinv Hindex Hextent) as Hrange.
  pose proof (Forall_lookup_1 _ _ _ _ Hrep Hextent) as Hext.
  cbv beta in Hrange, Hext.
  rewrite wrapS_small by lia.
  destruct (Z.eqb_spec (index + 1) extent) as [Heq|Hne]; cbn [negb].
  - unfold multi_iterator_reset. cbn [set_index m_iterator m_shape m_index].
    destruct (for_each_fits (reset i) (m_shape mi) (m_iterator mi))
      as (its' & -> & Hfit');
      [intros it; apply reset_defined; lia
      |intros it it'; apply reset_fits|done|].
    cbn [mbind option_bind].
    match goal with |- context [operator_incr_loop i ?m] =>
      specialize (IH m) end.
    cbn [m_index m_shape m_iterator] in IH.
    apply IH; [rewrite length_insert; lia|done..|].
    unfold index_in_range. cbn [m_index m_shape].
    rewrite <-(list_insert_id (m_shape mi) i extent) by done.
    apply Forall2_insert; [done|lia].
  - unfold multi_iterator_increment.
    cbn [set_index m_iterator m_shape m_index].
    destruct (for_each_fits (increment i) (m_shape mi) (m_iterator mi))
      as (its' & -> & Hfit');
      [intros it; apply increment_defined; lia
      |intros it it'; apply increment_fits|done|].
    cbn [mbind option_bind]. eexists _, false. split; [done|].
    cbn [m_index m_shape m_iterator]. split; [done|]. split; [done|].
    unfold index_in_range. cbn [m_index m_shape].
    rewrite <-(list_insert_id (m_shape mi) i extent) by done.
    apply Forall2_insert; [done|lia].
Qed.

(** The body of [operator++], from any state that satisfies the invariant:
    it runs through and the state satisfies the invariant again. *)
Lemma operator_incr_in_range mi :
  Forall (λ e, e < 2 ^ size_bits) (m_shape mi) →
  Forall (cursor_fits (m_shape mi)) (m_iterator mi) →
  index_in_range mi →
  ∃ mi' carry, operator_incr_body mi = Some (mi', carry)
    ∧ m_shape mi' = m_shape mi
    ∧ Forall (cursor_fits (m_shape mi)) (m_iterator mi')
    ∧ index_in_range mi'.
Proof. intros. by apply operator_incr_loop_in_range. Qed.

Lemma traverse_in_range n : ∀ mi,
  Forall (λ e, e < 2 ^ size_bits) (m_shape mi) →
  Forall (cursor_fits (m_shape mi)) (m_iterator mi) →
  index_in_range mi →
  ∃ log final, traverse n mi = Some (log, final)
    ∧ m_shape final = m_shape mi ∧ index_in_range final.
Proof.
  induction n as [|n IH]; intros mi Hrep Hfit Hinv.
  { by exists [], mi. }
  destruct (operator_incr_in_range mi Hrep Hfit Hinv)
    as (next & carry & Hstep & Hshape & Hfit' & Hinv').
  destruct (IH next) as (log & final & Hrun & Hshape' & Hfinal).
  { by rewrite Hshape. }
  { by rewrite Hshape. }
  { done. }
  cbn [traverse]. rewrite Hstep. cbn [mbind option_bind]. rewrite Hrun.
  cbn [mbind option_bind]. eexists _, final. split; [done|].
  split; [congruence|done].
Qed.

(** A 0-dimensional shape: the body of [operator++] runs its carry out at
    once. *)
Lemma operator_incr_scalar its :
  operator_incr_body (make_multi_iterator its []) = Some (make_multi_iterator its [], true).
Proof. reflexivity. Qed.

(** C8 on the code.  No call of [operator++] is defined: the function has no
    [return] statement, so a call that has run its body flows off the end of
    a function that returns [multi_iterator&].  (What the body alone does to
    the index is [operator_incr_in_range].) *)
Theorem operator_incr_undefined (mi : multi_iterator) :
  operator_incr mi = None.
Proof.
  unfold operator_incr. by destruct (operator_incr_body mi) as [[? ?]|].
Qed.

(** C5 on the code.  The two cursors as the constructor builds them, driven
    over the shape [[2; 3]] by six [operator++] calls: the index runs through
    (0,0), (0,1), (0,2), (1,0), (1,1), (1,2) and the sixth call runs the carry
    out, but the positions read are 0, 1, 2, 5, 6, 7 for the strides [[3; 1]]
    and 0, 1, 2, 2, 3, 4 for the strides [[0; 1]]: with backstrides of 0,
    [reset(1)] takes nothing back at the end of a row.  (The positions are
    those the body of [operator++] leaves; each call is undefined besides,
    for want of a [return] statement.) *)
Theorem traverse_2x3_as_constructed :
  (first ← make_broadcasting_iterator 0 [3; 1] [2; 3];
   second ← make_broadcasting_iterator 0 [0; 1] [2; 3];
   fst <$> traverse 6 (make_multi_iterator [first; second] [2; 3]))
  = Some [([0; 0], [0; 0], false); ([0; 1], [1; 1], false);
          ([0; 2], [2; 2], false); ([1; 0], [5; 2], false);
          ([1; 1], [6; 3], false); ([1; 2], [7; 4], true)].
Proof. vm_compute. reflexivity. Qed.

(** The same traversal with cursors that hold what the lambda of the
    constructor makes of their strides, [[5; 2]] and [[0; 2]]: the positions
    are 0 to 5, and 0, 1, 2 twice.  The backstride of the outermost
    dimension is first used by the sixth call. *)
Lemma traverse_2x3_with_transformed_strides :
  (back1 ← transform backstride_op [3; 1] [2; 3] [0; 0];
   back2 ← transform backstride_op [0; 1] [2; 3] [0; 0];
   fst <$> traverse 6
     (make_multi_iterator
        [{| m_iter := 0; m_strides := [3; 1]; m_backstrides := back1 |};
         {| m_iter := 0; m_strides := [0; 1]; m_backstrides := back2 |}]
        [2; 3]))
  = Some [([0; 0], [0; 0], false); ([0; 1], [1; 1], false);
          ([0; 2], [2; 2], false); ([1; 0], [3; 0], false);
          ([1; 1], [4; 1], false); ([1; 2], [5; 2], true)].
Proof. vm_compute. reflexivity. Qed.

(** * The expression predicate *)

Lemma derives_from_complete classes n Base Derived :
  inherits classes n Base Derived →
  ∀ depth, (n ≤ depth)%nat → derives_from depth classes Base Derived = true.
Proof.
  induction 1 as [Base Derived Hin|n Base Mid Derived Hin _ IH];
    intros [|depth] Hle; try lia; cbn [derives_from];
    apply existsb_exists.
  - exists Base. split; [by apply list_elem_of_In|].
    by rewrite bool_decide_eq_true_2.
  - exists Mid. split; [by apply list_elem_of_In|].
    rewrite IH by lia. by rewrite orb_true_r.
Qed.

Lemma derives_from_sound classes depth : ∀ Base Derived,
  derives_from depth classes Base Derived = true →
  ∃ n, inherits classes n Base Derived.
Proof.
  induction depth as [|depth IH]; intros Base Derived; [done|].
  cbn [derives_from]. intros (B & Hin%list_elem_of_In & H)%existsb_exists.
  apply orb_true_iff in H as [->%bool_decide_eq_true|H].
  - exists 1%nat. by constructor.
  - destruct (IH _ _ H) as [n Hn]. exists (S n). by econstructor.
Qed.

Lemma derived_is_class classes Base Derived :
  Base ∈ direct_bases classes Derived → is_class classes Derived = true.
Proof.
  destruct Derived as [name|name|D]; cbn [direct_bases is_class];
    [by intros ?%elem_of_nil| |by intros ?%elem_of_nil].
  destruct (classes !! name) as [bases|] eqn:E; cbn [default from_option id].
  - intros _. apply bool_decide_eq_true. by eexists.
  - by intros ?%elem_of_nil.
Qed.

(** C10.  [is_xexpression<E>] is true when [E] has [xexpression<E>] as a
    base (through a chain of base clauses no longer than the program has
    classes, plus one); it is true only then; and it is false for every
    fundamental type, a floating-point number among them. *)
Theorem is_xexpression_spec (classes : gmap string (list cpp_type)) :
  (∀ E n, inherits classes n (xexpression E) E → (n ≤ S (size classes))%nat →
          is_xexpression classes E = true)
  ∧ (∀ E, is_xexpression classes E = true →
          ∃ n, inherits classes n (xexpression E) E)
  ∧ (∀ name, is_xexpression classes (Fundamental name) = false).
Proof.
  split; [|split].
  - intros E n Hinh Hn. unfold is_xexpression, is_base_of.
    cbn [is_class andb].
    rewrite (derives_from_complete _ _ _ _ Hinh) by done. rewrite orb_true_r.
    rewrite andb_true_r. inversion Hinh; subst; by eapply derived_is_class.
  - intros E. unfold is_xexpression, is_base_of. cbn [is_class andb].
    intros [_ [Heq%bool_decide_eq_true|H]%orb_true_iff]%andb_true_iff.
    + exfalso. clear -Heq. induction E as [| |D IH]; try discriminate.
      injection Heq as Heq. by apply IH.
    + by eapply derives_from_sound.
  - done.
Qed.

Lemma is_xexpression_spec_witness :
  is_xexpression example_classes (Class "xarray") = true
  ∧ is_xexpression example_classes (Class "plain") = false
  ∧ is_xexpression example_classes (Fundamental "double") = false.
Proof.
  destruct (is_xexpression_spec example_classes) as (Hyes & Hno & Hscalar).
  split; [|split].
  - apply (Hyes (Class "xarray") 1%nat); [|vm_compute; lia].
    constructor. vm_compute. apply list_elem_of_here.
  - vm_compute. reflexivity.
  - apply Hscalar.
Defined.

(** * Further properties of the shape broadcaster *)

Lemma foldl_max_attained (dim_list : list Z) : ∀ res,
  foldl (λ res dim, dim `max` res) res dim_list = res
  ∨ foldl (λ res dim, dim `max` res) res dim_list ∈ dim_list.
Proof.
  induction dim_list as [|d l IH]; intros res; cbn [foldl]; [by left|].
  destruct (IH (d `max` res)) as [->|Hin].
  - destruct (Z.max_spec d res) as [[_ ->]|[_ ->]]; [by left|].
    right. apply list_elem_of_here.
  - right. by apply list_elem_of_further.
Qed.

(** X1.  [broadcast_dim] returns the largest of the extents it is given and
    0: it is at least every extent, at least 0, and it is 0 or one of the
    extents. *)
Theorem broadcast_dim_is_max (dim_list : list Z) :
  Forall (λ dim, dim ≤ broadcast_dim dim_list) dim_list
  ∧ 0 ≤ broadcast_dim dim_list
  ∧ (broadcast_dim dim_list = 0 ∨ broadcast_dim dim_list ∈ dim_list).
Proof.
  split; [apply foldl_max_upper_bound|].
  split; [apply foldl_max_lower_bound|apply foldl_max_attained].
Qed.

(** Each extent of the output survives the loop, or was 1 and is now the
    input's. *)
Lemma loop_frame rin : ∀ rout t i o,
  rout !! i = Some o →
  (broadcast_shape_loop rin rout t).2 !! i = Some o
  ∨ (o = 1 ∧ (broadcast_shape_loop rin rout t).2 !! i = rin !! i
     ∧ (i < length rin)%nat).
Proof.
  induction rin as [|b rin IH]; intros rout t i o Ho; [by left|].
  destruct rout as [|a rout]; [done|].
  rewrite broadcast_shape_loop_cons.
  destruct (Z.eqb_spec a 1) as [->|Ha]; cbn zeta.
  - destruct i as [|i]; cbn [snd].
    + injection Ho as <-. right. cbn. split; [done|]. split; [done|lia].
    + rewrite !lookup_cons. destruct (IH rout t i o Ho) as [H|(?&?&?)];
        [by left|right]. cbn [length]. split; [done|]. split; [done|lia].
  - destruct (negb (b =? 1) && negb (a =? b)); [by left|]. cbn zeta.
    destruct i as [|i]; cbn [snd]; [by left|].
    rewrite !lookup_cons.
    destruct (IH rout (t && (a =? b)) i o Ho) as [H|(?&?&?)];
      [by left|right]. cbn [length]. split; [done|]. split; [done|lia].
Qed.

(** X2.  Whatever way a call [broadcast_shape(input, output)] ends, an
    extent of the output is either left as it was, or it was 1, lies within
    the rank of the input, and now holds the input's extent of the same
    trailing position.  In particular no extent other than 1 is ever
    overwritten, also by a call that throws, and the dimensions of the
    output beyond the rank of the input are not touched. *)
Theorem broadcast_shape_frame (input output : list Z) (i : nat) (o : Z) :
  reverse output !! i = Some o →
  reverse (broadcast_shape input output).2 !! i = Some o
  ∨ (o = 1
     ∧ reverse (broadcast_shape input output).2 !! i = reverse input !! i
     ∧ (i < length input)%nat).
Proof.
  intros Ho. rewrite broadcast_shape_snd, reverse_involutive.
  rewrite <-(length_reverse input). by apply loop_frame.
Qed.

Lemma broadcast_shape_frame_witness :
  reverse (broadcast_shape [4; 5] [7; 1; 3]).2 !! 2%nat = Some 7
  ∨ (7 = 1
     ∧ reverse (broadcast_shape [4; 5] [7; 1; 3]).2 !! 2%nat
       = reverse [4; 5] !! 2%nat
     ∧ (2 < length [4; 5])%nat).
Proof. apply (broadcast_shape_frame [4; 5] [7; 1; 3] 2 7). reflexivity. Defined.

Lemma loop_again rin : ∀ rout t t' out t2,
  broadcast_shape_loop rin rout t = (Returned t', out) →
  ∃ t'', broadcast_shape_loop rin out t2 = (Returned t'', out).
Proof.
  induction rin as [|b rin IH]; intros rout t t' out t2.
  { simpl. intros [= _ <-]. by eexists. }
  destruct rout as [|a rout]; [done|]. rewrite broadcast_shape_loop_cons.
  destruct (Z.eqb_spec a 1) as [->|Ha]; cbn zeta.
  - destruct (broadcast_shape_loop rin rout t) as [r rest] eqn:E. cbn [fst snd].
    intros [= -> <-]. rewrite broadcast_shape_loop_cons.
    pose proof (λ t2, IH _ _ _ _ t2 E) as Hagain.
    destruct (Z.eqb_spec b 1) as [->|Hb]; cbn zeta.
    + destruct (Hagain t2) as [t1 ->]. by eexists.
    + rewrite Z.eqb_refl. cbn [negb andb].
      destruct (Hagain (t2 && true)) as [t1 ->]. by eexists.
  - destruct (negb (b =? 1) && negb (a =? b)) eqn:Hc; [done|]. cbn zeta.
    destruct (broadcast_shape_loop rin rout _) as [r rest] eqn:E. cbn [fst snd].
    intros [= -> <-]. rewrite broadcast_shape_loop_cons.
    destruct (Z.eqb_spec a 1) as [|_]; [done|]. rewrite Hc. cbn zeta.
    destruct (IH _ _ _ _ (t2 && (a =? b)) E) as [t3 ->]. by eexists.
Qed.

(** X3.  Folding an operand a second time changes nothing: when
    [broadcast_shape(input, output)] has returned, calling it again with the
    same input on the output it left returns too and leaves that output as
    it is. *)
Theorem broadcast_shape_again (input output : list Z) (t : bool) (out : list Z) :
  broadcast_shape input output = (Returned t, out) →
  ∃ t', broadcast_shape input out = (Returned t', out).
Proof.
  unfold broadcast_shape at 1.
  destruct broadcast_shape_loop as [r rout] eqn:E. intros [= -> <-].
  unfold broadcast_shape. rewrite reverse_involutive.
  destruct (loop_again _ _ _ _ _
    (bool_decide (length input = length (reverse rout))) E) as [t' ->].
  by eexists.
Qed.

Lemma broadcast_shape_again_witness :
  ∃ t', broadcast_shape [4; 1] [1; 4; 3] = (Returned t', [1; 4; 3]).
Proof. apply (broadcast_shape_again [4; 1] [1; 1; 3] false). reflexivity. Defined.

Lemma incompatible_swap (l1 l2 : list Z) :
  Exists incompatible (zip l1 l2) ↔ Exists incompatible (zip l2 l1).
Proof.
  revert l2. induction l1 as [|x l1 IH]; intros [|y l2]; cbn [zip zip_with];
    rewrite ?Exists_nil; [done..|].
  rewrite !Exists_cons, IH. unfold incompatible. cbn [fst snd].
  split; (intros [(?&?&?)|?]; [left; repeat split; congruence|by right]).
Qed.

Lemma widen_swap (l1 : list Z) : ∀ l2,
  ¬ Exists incompatible (zip l1 l2) →
  zip_with widen l1 l2 = zip_with widen l2 l1.
Proof.
  induction l1 as [|x l1 IH]; intros [|y l2] Hok; [done..|].
  cbn [zip zip_with] in *. rewrite Exists_cons in Hok.
  rewrite IH by tauto. f_equal. unfold widen.
  destruct (Z.eqb_spec y 1) as [->|Hy], (Z.eqb_spec x 1) as [->|Hx];
    [done..|].
  destruct (decide (x = y)) as [|Hne]; [done|].
  exfalso. apply Hok. left. done.
Qed.

(** X4.  Between two shapes of one rank the fold does not depend on which
    of them is the accumulator: when folding [B] into [A] returns, folding
    [A] into [B] returns as well and leaves the same shape. *)
Theorem broadcast_shape_symmetric (A B : list Z) (t : bool) (out : list Z) :
  length A = length B →
  broadcast_shape B A = (Returned t, out) →
  ∃ t', broadcast_shape A B = (Returned t', out).
Proof.
  intros Hlen HBA.
  assert (¬ Exists incompatible (aligned_pairs B A)) as Hok.
  { rewrite <-broadcast_shape_throws_iff, HBA. done. }
  assert (¬ Exists incompatible (aligned_pairs A B)) as Hok'.
  { unfold aligned_pairs in *. by rewrite incompatible_swap. }
  destruct (broadcast_shape_succeeds A B) as [t' Ht']; [lia|done|].
  destruct (broadcast_shape A B) as [r out'] eqn:HAB. cbn [fst] in Ht'. subst r.
  exists t'. f_equal.
  apply broadcast_shape_returns in HBA as (_ & _ & H1).
  apply broadcast_shape_returns in HAB as (_ & _ & H2).
  apply (inj reverse). rewrite H1, H2.
  rewrite !drop_ge, !app_nil_r by (rewrite length_reverse; lia).
  symmetry. by apply widen_swap.
Qed.

Lemma broadcast_shape_symmetric_witness :
  ∃ t', broadcast_shape [2; 1; 4] [1; 3; 4] = (Returned t', [2; 3; 4]).
Proof.
  apply (broadcast_shape_symmetric [2; 1; 4] [1; 3; 4] false); reflexivity.
Defined.

Lemma loop_into_ones rin : ∀ n t,
  (length rin ≤ n)%nat →
  broadcast_shape_loop rin (replicate n 1) t
  = (Returned t, rin ++ replicate (n - length rin) 1).
Proof.
  induction rin as [|b rin IH]; intros n t Hn.
  { simpl. by rewrite Nat.sub_0_r. }
  destruct n as [|n]; [simpl in Hn; lia|]. cbn [replicate].
  rewrite broadcast_shape_loop_cons. cbn [Z.eqb Pos.eqb]. cbn zeta.
  rewrite IH by (simpl in Hn; lia). done.
Qed.

(** X5.  An accumulator of [n] ones takes over any input of rank at most
    [n]: the call returns, the output is the input behind [n - rank(input)]
    leading ones, and the flag is true exactly when the input has rank
    [n]. *)
Theorem broadcast_shape_into_ones (input : list Z) (n : nat) :
  (length input ≤ n)%nat →
  broadcast_shape input (replicate n 1)
  = (Returned (bool_decide (length input = n)),
     replicate (n - length input) 1 ++ input).
Proof.
  intros Hn. unfold broadcast_shape. rewrite reverse_replicate, length_replicate.
  rewrite loop_into_ones by (by rewrite length_reverse).
  by rewrite reverse_app, reverse_replicate, reverse_involutive, length_reverse.
Qed.

Lemma broadcast_shape_into_ones_witness :
  broadcast_shape [5; 1] (replicate 3 1)
  = (Returned (bool_decide (length [5; 1] = 3%nat)),
     replicate (3 - length [5; 1]) 1 ++ [5; 1]).
Proof. apply (broadcast_shape_into_ones [5; 1] 3). simpl. lia. Defined.

(** * Further properties of the broadcasting cursor *)

Lemma to_difference_0 : to_difference 0 = 0.
Proof. reflexivity. Qed.

(** X6.  On a cursor as the constructor builds it, [reset(dim)] moves
    nothing for a dimension of the shape, whatever the strides and the
    shape are (every backstride stored is 0), and is undefined for a
    dimension the shape does not have. *)
Theorem reset_of_constructed (iter : Z) (strides shape : list Z) (dim : nat) :
  (make_broadcasting_iterator iter strides shape ≫= reset dim)
  = if decide (dim < length shape)%nat
    then make_broadcasting_iterator iter strides shape
    else None.
Proof.
  rewrite make_broadcasting_iterator_backstrides. cbn [mbind option_bind].
  unfold reset. cbn [m_backstrides m_iter m_strides].
  destruct (decide (dim < length shape)%nat) as [Hlt|Hge].
  - rewrite lookup_replicate_2 by done. cbn [mbind option_bind].
    rewrite to_difference_0, Z.sub_0_r. done.
  - rewrite (proj1 (lookup_replicate_None _ _ _)) by lia. done.
Qed.

Lemma increment_times_along n dim : ∀ it k,
  m_strides it !! dim = Some k →
  increment_times n dim it
  = Some {| m_iter := m_iter it + Z.of_nat n * to_difference k;
            m_strides := m_strides it; m_backstrides := m_backstrides it |}.
Proof.
  induction n as [|n IH]; intros it k Hk.
  { cbn [increment_times]. destruct it as [p s b]. cbn. do 2 f_equal. lia. }
  cbn [increment_times]. unfold increment at 1. rewrite Hk.
  cbn [mbind option_bind]. rewrite (IH _ k) by done.
  cbn [m_iter m_strides m_backstrides]. do 2 f_equal. lia.
Qed.

(** X7.  [n] calls of [increment(dim)] move the position by [n] times the
    stride of that dimension and change nothing else of the cursor; along
    a dimension of stride 0, a broadcast dimension, the cursor stays where
    it is. *)
Theorem increment_times_moves (it : broadcasting_iterator) (n dim : nat) (k : Z) :
  m_strides it !! dim = Some k →
  increment_times n dim it
  = Some {| m_iter := m_iter it + Z.of_nat n * to_difference k;
            m_strides := m_strides it; m_backstrides := m_backstrides it |}
  ∧ (k = 0 → increment_times n dim it = Some it).
Proof.
  intros Hk. split; [by apply increment_times_along|].
  intros ->. rewrite (increment_times_along n dim it 0 Hk).
  rewrite to_difference_0. destruct it as [p s b]. cbn. do 2 f_equal. lia.
Qed.

Lemma increment_times_moves_witness :
  let it := {| m_iter := 2; m_strides := [0; 4]; m_backstrides := [0; 8] |} in
  increment_times 3 1 it
  = Some {| m_iter := m_iter it + Z.of_nat 3 * to_difference 4;
            m_strides := m_strides it; m_backstrides := m_backstrides it |}
  ∧ (4 = 0 → increment_times 3 1 it = Some it).
Proof.
  apply (increment_times_moves
    {| m_iter := 2; m_strides := [0; 4]; m_backstrides := [0; 8] |} 3 1 4).
  reflexivity.
Defined.

(** X8.  [increment] and [reset] commute, for any two dimensions: a reset
    after an increment leaves the cursor where an increment after the reset
    leaves it, and one order is undefined exactly when the other is. *)
Theorem increment_reset_commute (it : broadcasting_iterator) (d1 d2 : nat) :
  increment d1 it ≫= reset d2 = reset d2 it ≫= increment d1.
Proof.
  unfold increment, reset.
  destruct (m_strides it !! d1) as [s|] eqn:Hs,
           (m_backstrides it !! d2) as [b|] eqn:Hb;
    cbn [mbind option_bind m_strides m_backstrides m_iter];
    rewrite ?Hs, ?Hb; cbn [mbind option_bind]; [|done..].
  do 2 f_equal. lia.
Qed.

(** * The body of the odometer's step *)

(** A property the cursors have and a relation between a cursor and what a
    call makes of it, carried through [for_each]. *)
Lemma for_each_lift (P : broadcasting_iterator → Prop)
    (R : broadcasting_iterator → broadcasting_iterator → Prop) f its its' :
  (∀ it it', f it = Some it' → P it → P it' ∧ R it it') →
  Forall P its → for_each f its = Some its' →
  Forall P its' ∧ Forall2 R its its'.
Proof.
  intros Hf HP H. unfold for_each in H. apply mapM_Some_1 in H.
  induction H as [|it it' its its' Hit _ IH]; [by split|].
  apply Forall_cons in HP as [HPit HP]. destruct (IH HP) as [? ?].
  destruct (Hf _ _ Hit HPit) as [? ?]. split; by constructor.
Qed.

Lemma Forall2_compose {A} (R1 R2 R3 : A → A → Prop) l1 l2 l3 :
  (∀ a b c, R1 a b → R2 b c → R3 a c) →
  Forall2 R1 l1 l2 → Forall2 R2 l2 l3 → Forall2 R3 l1 l3.
Proof.
  intros Hc H12. revert l3. induction H12 as [|a b l k Hab _ IH];
    intros l3 H23; inversion H23; subst; constructor; eauto.
Qed.

Lemma increment_same_strides dim it it' :
  increment dim it = Some it' → same_strides it it'.
Proof.
  unfold increment. destruct (m_strides it !! dim); [|done].
  by intros [= <-].
Qed.

Lemma reset_same_strides dim it it' :
  reset dim it = Some it' → same_strides it it'.
Proof.
  unfold reset. destruct (m_backstrides it !! dim); [|done].
  by intros [= <-].
Qed.

Lemma operator_incr_loop_frame j : ∀ mi mi' carry,
  operator_incr_loop j mi = Some (mi', carry) →
  m_shape mi' = m_shape mi
  ∧ length (m_index mi') = length (m_index mi)
  ∧ Forall2 same_strides (m_iterator mi) (m_iterator mi').
Proof.
  assert (∀ its, Forall (λ _ : broadcasting_iterator, True) its) as Htrue.
  { intros its. by apply Forall_forall. }
  induction j as [|i IH]; intros mi mi' carry.
  { intros [= <- _]. repeat split. apply Forall_Forall2_diag.
    apply Forall_forall. intros; by split. }
  cbn [operator_incr_loop].
  destruct (m_index mi !! i) as [index|]; [|done].
  destruct (m_shape mi !! i) as [extent|]; [|done].
  cbn [mbind option_bind].
  destruct (negb (wrapS (index + 1) =? extent)).
  - unfold multi_iterator_increment. cbn [set_index m_iterator m_shape m_index].
    destruct (for_each (increment i) (m_iterator mi)) as [its|] eqn:E; [|done].
    cbn [mbind option_bind]. intros [= <- _]. cbn [m_shape m_index m_iterator].
    split; [done|]. split; [by rewrite length_insert|].
    by destruct (for_each_lift _ _ _ _ _
      (λ it it' H _, conj I (increment_same_strides i it it' H)) (Htrue _) E).
  - unfold multi_iterator_reset. cbn [set_index m_iterator m_shape m_index].
    destruct (for_each (reset i) (m_iterator mi)) as [its|] eqn:E; [|done].
    cbn [mbind option_bind]. intros H. apply IH in H as (Hs & Hl & Hc).
    cbn [m_shape m_index m_iterator] in *.
    split; [done|]. split; [by rewrite Hl, length_insert|].
    destruct (for_each_lift _ _ _ _ _
      (λ it it' H _, conj I (reset_same_strides i it it' H)) (Htrue _) E)
      as [_ H1].
    eapply Forall2_compose; [|exact H1|exact Hc].
    intros a b c [? ?] [? ?]. split; congruence.
Qed.

(** The body of [operator++] changes positions and the index and nothing
    else: the shape, the rank of the index, the number of cursors and the
    strides and backstrides of every cursor are after it what they were
    before. *)
Lemma operator_incr_body_frame (mi mi' : multi_iterator) (carry : bool) :
  operator_incr_body mi = Some (mi', carry) →
  m_shape mi' = m_shape mi
  ∧ length (m_index mi') = length (m_index mi)
  ∧ Forall2 same_strides (m_iterator mi) (m_iterator mi').
Proof. apply operator_incr_loop_frame. Qed.

Lemma flat_index_snoc shape index extent x :
  length index = length shape →
  flat_index (shape ++ [extent]) (index ++ [x])
  = flat_index shape index * extent + x.
Proof.
  intros Hlen. unfold flat_index.
  rewrite zip_with_app by done. by rewrite foldl_app.
Qed.

Lemma extent_product_snoc shape extent :
  extent_product (shape ++ [extent]) = extent_product shape * extent.
Proof. unfold extent_product. by rewrite foldl_app. Qed.

Lemma snoc_of_length {A} (l : list A) n :
  length l = S n → ∃ l0 x, l = l0 ++ [x] ∧ length l0 = n.
Proof.
  destruct l as [|y l] using rev_ind; [done|].
  rewrite length_app. cbn [length]. intros H. exists l, y. split; [done|lia].
Qed.

(** An index within the shape has a rank below the number of indices. *)
Lemma flat_index_bounds index : ∀ shape,
  Forall2 (λ i e, 0 ≤ i < e) index shape →
  0 ≤ flat_index shape index < extent_product shape.
Proof.
  induction index as [|x index IH] using rev_ind; intros shape H.
  { apply Forall2_nil_inv_l in H as ->. by compute. }
  apply Forall2_app_inv_l in H as (shape0 & es & H0 & Hx & ->).
  apply Forall2_cons_inv_l in Hx as (e & es' & Hxe & Hnil & ->).
  apply Forall2_nil_inv_l in Hnil as ->.
  rewrite flat_index_snoc, extent_product_snoc by (by eapply Forall2_length).
  specialize (IH _ H0). nia.
Qed.

(** Two indices within the shape with one rank are one index. *)
Lemma flat_index_injective shape : ∀ index1 index2,
  Forall2 (λ i e, 0 ≤ i < e) index1 shape →
  Forall2 (λ i e, 0 ≤ i < e) index2 shape →
  flat_index shape index1 = flat_index shape index2 → index1 = index2.
Proof.
  induction shape as [|e shape IH] using rev_ind; intros index1 index2 H1 H2.
  { apply Forall2_nil_inv_r in H1 as ->. by apply Forall2_nil_inv_r in H2 as ->. }
  apply Forall2_app_inv_r in H1 as (a & xs & Ha & Hx & ->).
  apply Forall2_cons_inv_r in Hx as (x & xs' & Hxe & Hnil & ->).
  apply Forall2_nil_inv_r in Hnil as ->.
  apply Forall2_app_inv_r in H2 as (b & ys & Hb & Hy & ->).
  apply Forall2_cons_inv_r in Hy as (y & ys' & Hye & Hnil & ->).
  apply Forall2_nil_inv_r in Hnil as ->.
  rewrite !flat_index_snoc by (by eapply Forall2_length).
  intros Heq.
  assert (flat_index shape a = flat_index shape b ∧ x = y) as [HF ->].
  { apply (Z.div_mod_unique e); [left; lia..|]. lia. }
  f_equal. by apply IH.
Qed.

Lemma flat_index_zeros shape :
  flat_index shape (replicate (length shape) 0) = 0.
Proof.
  induction shape as [|e shape IH] using rev_ind; [done|].
  rewrite length_app. cbn [length]. rewrite Nat.add_1_r, replicate_S_end.
  rewrite flat_index_snoc by (by rewrite length_replicate). rewrite IH. lia.
Qed.

Lemma flat_index_zero_inv shape index :
  Forall2 (λ i e, 0 ≤ i < e) index shape →
  flat_index shape index = 0 → index = replicate (length shape) 0.
Proof.
  intros Hr H0. apply (flat_index_injective shape); [done| |].
  - clear H0. induction Hr as [|i e idx shp Hie _ IH]; [constructor|].
    cbn [length replicate]. constructor; [lia|done].
  - by rewrite flat_index_zeros.
Qed.

Lemma multi_iterator_increment_index i mi mi' :
  multi_iterator_increment i mi = Some mi' →
  m_index mi' = m_index mi ∧ m_shape mi' = m_shape mi.
Proof.
  unfold multi_iterator_increment.
  destruct (for_each _ _); [|done]. by intros [= <-].
Qed.

Lemma multi_iterator_reset_index i mi mi' :
  multi_iterator_reset i mi = Some mi' →
  m_index mi' = m_index mi ∧ m_shape mi' = m_shape mi.
Proof.
  unfold multi_iterator_reset.
  destruct (for_each _ _); [|done]. by intros [= <-].
Qed.

(** The loop entered at [j] is the successor on the first [j] dimensions
    and leaves the others alone. *)
Lemma operator_incr_loop_successor j : ∀ mi mi' carry pre suf pre_s suf_s,
  m_index mi = pre ++ suf → m_shape mi = pre_s ++ suf_s →
  length pre = j →
  Forall2 (λ i e, 0 ≤ i < e) pre pre_s →
  Forall (λ e, e < 2 ^ size_bits) pre_s →
  operator_incr_loop j mi = Some (mi', carry) →
  ∃ pre', m_index mi' = pre' ++ suf ∧ m_shape mi' = m_shape mi
    ∧ Forall2 (λ i e, 0 ≤ i < e) pre' pre_s
    ∧ flat_index pre_s pre'
      = (flat_index pre_s pre + 1) `mod` extent_product pre_s
    ∧ carry = bool_decide (flat_index pre_s pre + 1 = extent_product pre_s).
Proof.
  induction j as [|i IH];
    intros mi mi' carry pre suf pre_s suf_s Hidx Hshp Hlen Hinv Hrep.
  { apply nil_length_inv in Hlen as ->. apply Forall2_nil_inv_l in Hinv as ->.
    intros [= <- <-]. exists []. repeat split; [done..|constructor]. }
  destruct (snoc_of_length _ _ Hlen) as (pre0 & x & -> & Hlen0).
  apply Forall2_app_inv_l in Hinv as (ps0 & es & Hinv0 & Hx & ->).
  apply Forall2_cons_inv_l in Hx as (e & es' & Hxe & Hnil & ->).
  apply Forall2_nil_inv_l in Hnil as ->.
  apply Forall_app in Hrep as [Hrep0 [He _]%Forall_cons].
  pose proof (Forall2_length _ _ _ Hinv0) as Hlen_s.
  cbn [operator_incr_loop].
  rewrite Hidx, Hshp, <-!(assoc_L (++)). cbn [app].
  rewrite (list_lookup_middle pre0 suf x i) by done.
  rewrite (list_lookup_middle ps0 suf_s e i) by lia.
  cbn [mbind option_bind].
  rewrite wrapS_small by lia.
  rewrite flat_index_snoc, extent_product_snoc by done.
  pose proof (flat_index_bounds _ _ Hinv0) as HF.
  destruct (Z.eqb_spec (x + 1) e) as [Heq|Hne]; cbn [negb].
  - destruct (multi_iterator_reset i (set_index i 0 mi)) as [mi1|] eqn:E;
      [|done].
    cbn [mbind option_bind]. intros Hloop.
    apply multi_iterator_reset_index in E as [Hi1 Hs1].
    cbn [set_index m_index m_shape] in Hi1, Hs1.
    rewrite Hidx, <-(assoc_L (++)) in Hi1.
    replace i with (length pre0 + 0)%nat in Hi1 at 1 by lia.
    rewrite insert_app_r in Hi1. cbn in Hi1.
    rewrite Hshp, <-(assoc_L (++)) in Hs1.
    destruct (IH mi1 mi' carry pre0 (0 :: suf) ps0 (e :: suf_s))
      as (pre' & Hi' & Hs' & Hinv' & Hflat & Hcarry); [done..|].
    exists (pre' ++ [0]). rewrite <-(assoc_L (++)). split; [done|].
    split; [by rewrite Hs', Hs1|].
    split; [apply Forall2_app; [done|constructor; [lia|constructor]]|].
    rewrite flat_index_snoc by (by eapply Forall2_length).
    rewrite Hflat. split.
    + replace (flat_index ps0 pre0 * e + x + 1)
        with ((flat_index ps0 pre0 + 1) * e) by lia.
      rewrite Z.mul_mod_distr_r by lia. lia.
    + rewrite Hcarry. apply bool_decide_ext. nia.
  - destruct (multi_iterator_increment i (set_index i (x + 1) mi))
      as [mi1|] eqn:E; [|done].
    cbn [mbind option_bind]. intros [= <- <-].
    apply multi_iterator_increment_index in E as [Hi1 Hs1].
    cbn [set_index m_index m_shape] in Hi1, Hs1.
    rewrite Hidx, <-(assoc_L (++)) in Hi1.
    replace i with (length pre0 + 0)%nat in Hi1 at 1 by lia.
    rewrite insert_app_r in Hi1. cbn in Hi1.
    exists (pre0 ++ [x + 1]). rewrite <-(assoc_L (++)). split; [done|].
    split; [by rewrite Hs1, Hshp, <-(assoc_L (++))|].
    split; [apply Forall2_app; [done|constructor; [lia|constructor]]|].
    rewrite flat_index_snoc by done. split.
    + rewrite Z.mod_small by nia. lia.
    + symmetry. apply bool_decide_eq_false_2. nia.
Qed.

Lemma operator_incr_rank mi mi' carry :
  index_in_range mi →
  Forall (λ e, e < 2 ^ size_bits) (m_shape mi) →
  operator_incr_body mi = Some (mi', carry) →
  flat_index (m_shape mi) (m_index mi')
  = (flat_index (m_shape mi) (m_index mi) + 1)
    `mod` extent_product (m_shape mi)
  ∧ carry = bool_decide (flat_index (m_shape mi) (m_index mi) + 1
                         = extent_product (m_shape mi)).
Proof.
  intros Hinv Hrep Hstep.
  destruct (operator_incr_loop_successor (length (m_index mi)) mi mi' carry
    (m_index mi) [] (m_shape mi) [])
    as (pre' & Hi & Hs & _ & Hflat & Hcarry);
    [by rewrite app_nil_r..|done|done|done|done|].
  rewrite app_nil_r in Hi. by rewrite Hi.
Qed.

(** The body of [operator++] is the row-major successor.  On an index
    within the shape, with cursors that have a stride and a backstride for
    every dimension, the body runs through, the new index is within the
    shape, its row-major rank is the old rank plus 1 modulo the number of
    indices of the shape, and the carry runs out of the outermost dimension
    exactly when the old index was the last one. *)
Lemma operator_incr_body_successor (mi : multi_iterator) :
  index_in_range mi →
  Forall (λ e, e < 2 ^ size_bits) (m_shape mi) →
  Forall (cursor_fits (m_shape mi)) (m_iterator mi) →
  ∃ mi' carry, operator_incr_body mi = Some (mi', carry)
    ∧ index_in_range mi'
    ∧ flat_index (m_shape mi) (m_index mi')
      = (flat_index (m_shape mi) (m_index mi) + 1)
        `mod` extent_product (m_shape mi)
    ∧ carry = bool_decide (flat_index (m_shape mi) (m_index mi) + 1
                           = extent_product (m_shape mi)).
Proof.
  intros Hinv Hrep Hfit.
  destruct (operator_incr_in_range mi Hrep Hfit Hinv)
    as (mi' & carry & Hstep & _ & _ & Hinv').
  exists mi', carry. split; [done|]. split; [done|].
  by apply operator_incr_rank.
Qed.

(** [n] runs of the body from an index within the shape: they run through,
    and the index read before the [k]-th of them has the rank of the first
    one plus [k], modulo the number of indices. *)
Lemma traverse_ranks n : ∀ mi,
  index_in_range mi →
  Forall (λ e, e < 2 ^ size_bits) (m_shape mi) →
  Forall (cursor_fits (m_shape mi)) (m_iterator mi) →
  ∃ log final, traverse n mi = Some (log, final)
    ∧ length log = n
    ∧ m_shape final = m_shape mi
    ∧ index_in_range final
    ∧ flat_index (m_shape mi) (m_index final)
      = (flat_index (m_shape mi) (m_index mi) + Z.of_nat n)
        `mod` extent_product (m_shape mi)
    ∧ ∀ (k : nat) idx pos c, log !! k = Some (idx, pos, c) →
        Forall2 (λ i e, 0 ≤ i < e) idx (m_shape mi)
        ∧ flat_index (m_shape mi) idx
          = (flat_index (m_shape mi) (m_index mi) + Z.of_nat k)
            `mod` extent_product (m_shape mi)
        ∧ c = bool_decide
            ((flat_index (m_shape mi) (m_index mi) + Z.of_nat k)
               `mod` extent_product (m_shape mi) + 1
             = extent_product (m_shape mi)).
Proof.
  induction n as [|n IH]; intros mi Hinv Hrep Hfit.
  { exists [], mi. split; [done|]. split; [done|]. split; [done|].
    split; [done|]. pose proof (flat_index_bounds _ _ Hinv).
    split; [by rewrite Z.add_0_r, Z.mod_small|]. intros k ????. done. }
  pose proof (flat_index_bounds _ _ Hinv) as HF.
  destruct (operator_incr_in_range mi Hrep Hfit Hinv)
    as (next & carry & Hstep & Hshape & Hfit' & Hinv').
  destruct (operator_incr_rank mi next carry Hinv Hrep Hstep) as [Hflat Hcarry].
  destruct (IH next)
    as (log & final & Hrun & Hlen & Hshape' & Hfinal & Hff & Hlog);
    [done|by rewrite Hshape..|].
  rewrite Hshape in Hff, Hlog, Hshape'.
  cbn [traverse]. rewrite Hstep. cbn [mbind option_bind]. rewrite Hrun.
  cbn [mbind option_bind]. eexists _, final. split; [done|].
  split; [by rewrite length_cons, Hlen|]. split; [done|]. split; [done|].
  split.
  - rewrite Hff, Hflat, Zplus_mod_idemp_l. f_equal. lia.
  - intros [|k] idx pos c.
    + intros [= <- _ <-]. split; [done|].
      rewrite Z.add_0_r, Z.mod_small by done. split; [done|exact Hcarry].
    + intros Hk. cbn in Hk. destruct (Hlog k idx pos c Hk) as (Hr & Hfl & Hc).
      split; [done|]. rewrite Hflat, Zplus_mod_idemp_l in Hfl, Hc.
      replace (flat_index (m_shape mi) (m_index mi) + Z.of_nat (S k))
        with (flat_index (m_shape mi) (m_index mi) + 1 + Z.of_nat k) by lia.
      done.
Qed.

(** The body of [operator++], run as often as the shape has indices from a
    fresh multi-iterator over a shape with positive extents, reads every
    index of the shape once, in row-major order: the index read before the
    [k]-th run is the one of rank [k]; only the last run takes the carry out
    of the outermost dimension; and it leaves the index at all zeros
    again. *)
Lemma full_traversal (its : list broadcasting_iterator) (shape : list Z) :
  Forall (λ e, 0 < e < 2 ^ size_bits) shape →
  Forall (cursor_fits shape) its →
  ∃ log final,
    traverse (Z.to_nat (extent_product shape)) (make_multi_iterator its shape)
    = Some (log, final)
    ∧ Z.of_nat (length log) = extent_product shape
    ∧ (∀ (k : nat) idx pos c, log !! k = Some (idx, pos, c) →
         flat_index shape idx = Z.of_nat k
         ∧ c = bool_decide (Z.of_nat k + 1 = extent_product shape))
    ∧ (∀ idx, Forall2 (λ i e, 0 ≤ i < e) idx shape →
         ∃ pos c, log !! Z.to_nat (flat_index shape idx) = Some (idx, pos, c))
    ∧ m_index final = replicate (length shape) 0.
Proof.
  intros Hshape Hfit.
  assert (index_in_range (make_multi_iterator its shape)) as Hinit.
  { unfold index_in_range, make_multi_iterator. cbn [m_index m_shape].
    clear Hfit. induction Hshape as [|e shp He _ IH]; [constructor|].
    cbn [length replicate]. constructor; [lia|done]. }
  assert (Forall (λ e, e < 2 ^ size_bits) shape) as Hrep.
  { eapply Forall_impl; [done|]. intros e He. cbv beta in He. lia. }
  pose proof (flat_index_bounds _ _ Hinit) as HP.
  cbn [make_multi_iterator m_index m_shape] in HP.
  rewrite flat_index_zeros in HP.
  destruct (traverse_ranks (Z.to_nat (extent_product shape))
    (make_multi_iterator its shape) Hinit Hrep Hfit)
    as (log & final & Hrun & Hlen & Hs & Hfinal & Hff & Hlog).
  cbn [make_multi_iterator m_index m_shape] in Hs, Hff, Hlog.
  rewrite flat_index_zeros in Hff, Hlog.
  exists log, final. split; [done|]. split; [lia|].
  assert (∀ (k : nat) idx pos c, log !! k = Some (idx, pos, c) →
    Forall2 (λ i e, 0 ≤ i < e) idx shape
    ∧ flat_index shape idx = Z.of_nat k
    ∧ c = bool_decide (Z.of_nat k + 1 = extent_product shape)) as Hlog'.
  { intros k idx pos c Hk. pose proof (lookup_lt_Some _ _ _ Hk) as Hlt.
    destruct (Hlog k idx pos c Hk) as (Hr & Hfl & Hc).
    rewrite Z.add_0_l, Z.mod_small in Hfl, Hc by lia. done. }
  split; [intros k idx pos c Hk; by destruct (Hlog' k idx pos c Hk) as (_&?&?)|].
  split.
  - intros idx Hr. pose proof (flat_index_bounds _ _ Hr) as Hb.
    destruct (lookup_lt_is_Some_2 log (Z.to_nat (flat_index shape idx)))
      as [[[idx' pos] c] Hk]; [lia|].
    destruct (Hlog' _ _ _ _ Hk) as (Hr' & Hfl & _).
    rewrite Z2Nat.id in Hfl by lia.
    apply (flat_index_injective shape idx' idx Hr' Hr) in Hfl as ->.
    by eexists _, _.
  - rewrite Z.add_0_l, Z2Nat.id, Z_mod_same_full in Hff by lia.
    unfold index_in_range in Hfinal. rewrite Hs in Hfinal.
    by apply flat_index_zero_inv.
Qed.

(** * Further properties of the expression predicate *)

(** A chain of base clauses ends at a class that names the base. *)
Lemma inherits_named classes n Base Derived :
  inherits classes n Base Derived →
  ∃ name bases, classes !! name = Some bases ∧ Base ∈ bases.
Proof.
  induction 1 as [Base Derived Hin|n Base Mid Derived _ _ IH]; [|done].
  destruct Derived as [name|name|D]; cbn [direct_bases] in Hin;
    [by apply elem_of_nil in Hin| |by apply elem_of_nil in Hin].
  destruct (classes !! name) as [bases|] eqn:E; cbn [from_option id] in Hin;
    [by eexists _, _|by apply elem_of_nil in Hin].
Qed.

Lemma xexpression_not_self E : xexpression E ≠ E.
Proof.
  induction E as [| |D IH]; try discriminate.
  intros [= H]. by apply IH.
Qed.

(** X13.  [is_xexpression<E>] holds only if some class of the program names
    [xexpression<E>], at this very [E], in its base clause: a class that
    derives from an expression class [E'] without naming itself is no
    expression through [xexpression<E'>], and [xexpression<D>] itself is
    none unless a class names [xexpression<xexpression<D>>]. *)
Theorem is_xexpression_needs_naming (classes : gmap string (list cpp_type))
    (E : cpp_type) :
  is_xexpression classes E = true →
  ∃ name bases, classes !! name = Some bases ∧ xexpression E ∈ bases.
Proof.
  unfold is_xexpression, is_base_of. cbn [is_class andb].
  intros [_ [Heq%bool_decide_eq_true|H]%orb_true_iff]%andb_true_iff.
  - by apply xexpression_not_self in Heq.
  - apply derives_from_sound in H as [n Hn]. by eapply inherits_named.
Qed.

Lemma is_xexpression_needs_naming_witness :
  ∃ name bases, example_classes !! name = Some bases
    ∧ xexpression (Class "xarray") ∈ bases.
Proof.
  apply (is_xexpression_needs_naming example_classes (Class "xarray")).
  vm_compute. reflexivity.
Defined.

(** X14.  [disable_xexpression<E, R>] is [R] for every fundamental type
    [E], and is no type for a class [E] that names [xexpression<E>] in its
    base clause. *)
Theorem disable_xexpression_spec (classes : gmap string (list cpp_type))
    (R : Type) (r : R) :
  (∀ name, disable_xexpression classes (Fundamental name) r = Some r)
  ∧ (∀ E, xexpression E ∈ direct_bases classes E →
          disable_xexpression classes E r = None).
Proof.
  split; [done|]. intros E Hin. unfold disable_xexpression.
  assert (is_xexpression classes E = true) as ->; [|done].
  unfold is_xexpression, is_base_of. cbn [is_class andb].
  rewrite (derived_is_class _ _ _ Hin). cbn [andb].
  pose proof (inherits_direct classes _ _ Hin) as Hinh.
  rewrite (derives_from_complete _ _ _ _ Hinh) by lia.
  by rewrite orb_true_r.
Qed.

Lemma disable_xexpression_spec_witness :
  disable_xexpression example_classes (Fundamental "double") 0 = Some 0
  ∧ disable_xexpression example_classes (Class "xarray") 0 = None.
Proof.
  destruct (disable_xexpression_spec example_classes Z 0) as [Hscalar Hexpr].
  split; [apply Hscalar|]. apply Hexpr. vm_compute. apply list_elem_of_here.
Defined.
